(** * nmapsim.js: address-specification parsing and scan-report synthesis

    A shallow embedding of [src/nmapsim.js].  JavaScript strings are
    modelled as [string] (sequences of 8-bit code units), JavaScript
    numbers that the program manipulates are integers and are modelled
    as [Z], with the 32-bit wrap-around of the bit operators written
    out.  Regular expressions are a small syntax tree run by a
    backtracking matcher that returns its successes in priority order. *)

From Stdlib Require Import ZArith List Bool Ascii String Lia Permutation Sorted.
Import ListNotations.
Open Scope list_scope.
Open Scope string_scope.
Open Scope Z_scope.

(** ** JavaScript primitives used by the program *)

Module JS.

(** Code units that [String.prototype.trim] strips (those below 256). *)
Definition isWhiteSpace (c : ascii) : bool :=
  match nat_of_ascii c with
  | 9%nat | 10%nat | 11%nat | 12%nat | 13%nat | 32%nat | 160%nat => true
  | _ => false
  end.

Fixpoint trimStart (s : string) : string :=
  match s with
  | EmptyString => EmptyString
  | String c s' => if isWhiteSpace c then trimStart s' else s
  end.

Fixpoint trimEnd (s : string) : string :=
  match s with
  | EmptyString => EmptyString
  | String c s' =>
      match trimEnd s' with
      | EmptyString => if isWhiteSpace c then EmptyString else String c EmptyString
      | t => String c t
      end
  end.

(** [s.trim()] *)
Definition trim (s : string) : string := trimEnd (trimStart s).

Fixpoint drop (n : nat) (s : string) : string :=
  match n, s with
  | O, _ => s
  | S n', String _ s' => drop n' s'
  | S _, EmptyString => EmptyString
  end.

Fixpoint take (n : nat) (s : string) : string :=
  match n, s with
  | S n', String c s' => String c (take n' s')
  | _, _ => EmptyString
  end.

(** [s.startsWith(pat)] *)
Fixpoint startsWith (s pat : string) {struct pat} : bool :=
  match pat, s with
  | EmptyString, _ => true
  | String p pat', String c s' => Ascii.eqb p c && startsWith s' pat'
  | String _ _, EmptyString => false
  end.

(** [s.indexOf(pat)], [None] standing for -1. *)
Fixpoint indexOf (s pat : string) : option nat :=
  if startsWith s pat then Some O
  else match s with
       | EmptyString => None
       | String _ s' => option_map S (indexOf s' pat)
       end.

(** [s.includes(pat)] *)
Definition includes (s pat : string) : bool :=
  match indexOf s pat with Some _ => true | None => false end.

(** [s.replace(pat, rep)] with a string pattern: only the first
    occurrence of [pat], scanning from the left, is replaced.  The
    program's only replacement text is the empty string, so the [$]
    replacement patterns are not modelled. *)
Fixpoint replace (s pat rep : string) : string :=
  if startsWith s pat then rep ++ drop (String.length pat) s
  else match s with
       | EmptyString => EmptyString
       | String c s' => String c (replace s' pat rep)
       end.

(** [s.split(sep)] for a one-character separator. *)
Fixpoint split (s : string) (sep : ascii) : list string :=
  match s with
  | EmptyString => [EmptyString]
  | String c s' =>
      if Ascii.eqb c sep then EmptyString :: split s' sep
      else match split s' sep with
           | p :: ps => String c p :: ps
           | [] => [String c EmptyString]
           end
  end.

(** [a[i]] on an array of strings.  Every index the program reads is
    within bounds on the paths that reach it, since the token has passed
    the regular expression that fixes its shape ([matched_token_shape]);
    the default stands for [undefined]. *)
Definition at_ (a : list string) (i : nat) : string := nth i a EmptyString.

(** [a.includes(x)] on an array of strings. *)
Definition arrayIncludes (a : list string) (x : string) : bool :=
  existsb (String.eqb x) a.

(** *** Numbers *)

Definition isDigit (c : ascii) : bool :=
  ((48 <=? nat_of_ascii c) && (nat_of_ascii c <=? 57))%nat.

Definition digitValue (c : ascii) : Z := Z.of_nat (nat_of_ascii c) - 48.

Fixpoint parseDigits (acc : Z) (s : string) : Z :=
  match s with
  | EmptyString => acc
  | String c s' => parseDigits (acc * 10 + digitValue c) s'
  end.

(** [parseInt(s, 10)] and [Number(s)] on decimal numerals; [Number("")]
    is 0.  The program converts only regex-validated numerals and the
    entries of the port lists, so [NaN] is not modelled.  The result is
    the integer written, which is what the code computes for numerals
    below [2 ^ 53]: a double holds these integers, and their
    differences, exactly.  A longer numeral is rounded by the code; the
    properties that convert a numeral the regular expressions have not
    validated bound it by [2 ^ 53] ([isSafeNatural]). *)
Definition parseInt (s : string) : Z := parseDigits 0 s.
Definition Number (s : string) : Z := parseDigits 0 s.

Definition digitChar (d : Z) : ascii := ascii_of_nat (Z.to_nat (48 + d)).

Fixpoint digitsOf (fuel : nat) (n : Z) (acc : string) : string :=
  match fuel with
  | O => acc
  | S fuel' =>
      let acc' := String (digitChar (n mod 10)) acc in
      if n / 10 =? 0 then acc' else digitsOf fuel' (n / 10) acc'
  end.

(** Number-to-string conversion of an integer, as done by [+] between a
    number and a string. *)
Definition toString (n : Z) : string :=
  if n <? 0 then String "-"%char (digitsOf (S (Z.to_nat (Z.log2 (- n)))) (- n) EmptyString)
  else digitsOf (S (Z.to_nat (Z.log2 n))) n EmptyString.

(** *** 32-bit integer operators *)

Definition ToInt32 (x : Z) : Z := (x + 2 ^ 31) mod 2 ^ 32 - 2 ^ 31.
Definition ToUint32 (x : Z) : Z := x mod 2 ^ 32.

(** [a << n], [a >> n], [a >>> n], [a & b] *)
Definition shl (a n : Z) : Z := ToInt32 (Z.shiftl (ToInt32 a) (n mod 32)).
Definition sar (a n : Z) : Z := Z.shiftr (ToInt32 a) (n mod 32).
Definition shr (a n : Z) : Z := Z.shiftr (ToUint32 a) (n mod 32).
Definition band (a b : Z) : Z := Z.land (ToInt32 a) (ToInt32 b).

(** The values taken by [i] in [for (let i = a; i <= b; i++)]. *)
Definition forUpTo (a b : Z) : list Z :=
  map (fun k => a + Z.of_nat k) (seq 0 (Z.to_nat (b - a + 1))).

(** [Array.prototype.sort(cmp)]: for a consistent comparator the result
    is the stable sort; modelled as insertion from the right. *)
Fixpoint insert (cmp : string -> string -> Z) (x : string) (l : list string) : list string :=
  match l with
  | [] => [x]
  | y :: l' => if cmp x y <=? 0 then x :: l else y :: insert cmp x l'
  end.

Definition sort (cmp : string -> string -> Z) (l : list string) : list string :=
  fold_right (insert cmp) [] l.

End JS.

(** [_.range(start, end)] of lodash 4 (external library), called without
    a step.  Both arguments are converted to numbers; the step is
    [start < end ? 1 : -1], the result has
    [max(ceil((end - start) / step), 0)] elements, the first is [start]
    and each next one adds the step, so [end] is excluded. *)
Module Lodash.

Definition range (start end_ : Z) : list Z :=
  let step := if start <? end_ then 1 else -1 in
  let len := Z.to_nat (Z.max ((end_ - start) / step) 0) in
  map (fun k => start + Z.of_nat k * step) (seq 0 len).

End Lodash.

(** ** Regular expressions

    The fragment of ECMAScript regular expressions that the program
    uses: literal characters, character ranges, concatenation,
    alternation, the greedy quantifiers [?], [+] and [{k}], and the
    assertions [^] and [$] (no flags).  Groups do not capture anything
    the program reads, so capturing and non-capturing groups coincide. *)

Module RegExp.

Inductive regex : Type :=
| Eps
| Chr (c : ascii)
| Cls (lo hi : ascii)
| Cat (r1 r2 : regex)
| Alt (r1 r2 : regex)
| Opt (r : regex)
| Plus (r : regex)
| Bol
| Eol.

Definition inClass (lo hi c : ascii) : bool :=
  ((nat_of_ascii lo <=? nat_of_ascii c) && (nat_of_ascii c <=? nat_of_ascii hi))%nat.

(** [r{k}] *)
Fixpoint times (k : nat) (r : regex) : regex :=
  match k with
  | O => Eps
  | S O => r
  | S k' => Cat r (times k' r)
  end.

(** Keeps the end states that consumed at least one character of [s]:
    the check by which a quantifier whose minimum is reached rejects an
    empty iteration. *)
Definition progress (s : string) (l : list string) : list string :=
  filter (fun s' => (String.length s' <? String.length s)%nat) l.

(** Further greedy iterations of a quantified pattern whose single
    iteration is [iter]: another iteration is tried first, then the
    rest of the pattern.  Every iteration kept by [progress] shortens
    the text, so [fuel] iterations suffice when [fuel] is its length. *)
Fixpoint star (iter : string -> list string) (fuel : nat) (s0 : string) : list string :=
  match fuel with
  | O => [s0]
  | S fuel' => (flat_map (star iter fuel') (progress s0 (iter s0)) ++ [s0])%list
  end.

(** [run n r s]: the input has [n] characters and [s] is what is left of
    it; the result lists, in the order in which backtracking tries
    them, what is left after each way of matching [r] at the front of
    [s]. *)
Fixpoint run (n : nat) (r : regex) (s : string) {struct r} : list string :=
  match r with
  | Eps => [s]
  | Chr c =>
      match s with
      | String c' s' => if Ascii.eqb c c' then [s'] else []
      | EmptyString => []
      end
  | Cls lo hi =>
      match s with
      | String c' s' => if inClass lo hi c' then [s'] else []
      | EmptyString => []
      end
  | Cat r1 r2 => flat_map (run n r2) (run n r1 s)
  | Alt r1 r2 => (run n r1 s ++ run n r2 s)%list
  | Opt r1 => (progress s (run n r1 s) ++ [s])%list
  | Plus r1 => flat_map (star (run n r1) (String.length s)) (run n r1 s)
  | Bol => if (String.length s =? n)%nat then [s] else []
  | Eol => match s with EmptyString => [s] | String _ _ => [] end
  end.

(** The first start position, from the left, at which [r] matches; the
    result is the matched substring. *)
Fixpoint search (n : nat) (r : regex) (s : string) : option string :=
  match run n r s with
  | rest :: _ => Some (JS.take (String.length s - String.length rest) s)
  | [] =>
      match s with
      | EmptyString => None
      | String _ s' => search n r s'
      end
  end.

(** [r.exec(s)] reduced to element 0 of its result, [None] for [null]. *)
Definition exec (r : regex) (s : string) : option string :=
  search (String.length s) r s.

(** [r.test(s)] *)
Definition test (r : regex) (s : string) : bool :=
  match exec r s with Some _ => true | None => false end.

(** [s.match(r)] for a regular expression without the [g] flag. *)
Definition str_match (s : string) (r : regex) : option string := exec r s.

(** Declarative reading of [run]: [Matches n r s s'] when [r] can
    consume the front of [s] and leave [s']. *)
Inductive Matches (n : nat) : regex -> string -> string -> Prop :=
| MEps s : Matches n Eps s s
| MChr c s : Matches n (Chr c) (String c s) s
| MCls lo hi c s : inClass lo hi c = true -> Matches n (Cls lo hi) (String c s) s
| MCat r1 r2 s s1 s2 :
    Matches n r1 s s1 -> Matches n r2 s1 s2 -> Matches n (Cat r1 r2) s s2
| MAltL r1 r2 s s' : Matches n r1 s s' -> Matches n (Alt r1 r2) s s'
| MAltR r1 r2 s s' : Matches n r2 s s' -> Matches n (Alt r1 r2) s s'
| MOptNone r s : Matches n (Opt r) s s
| MOptSome r s s' :
    Matches n r s s' -> (String.length s' < String.length s)%nat ->
    Matches n (Opt r) s s'
| MPlusOne r s s' : Matches n r s s' -> Matches n (Plus r) s s'
| MPlusMore r s s1 s2 :
    Matches n (Plus r) s s1 -> Matches n r s1 s2 ->
    (String.length s2 < String.length s1)%nat ->
    Matches n (Plus r) s s2
| MBol s : String.length s = n -> Matches n Bol s s
| MEol : Matches n Eol EmptyString EmptyString.

(** Static properties of a pattern. *)

Fixpoint anchorFree (r : regex) : bool :=
  match r with
  | Bol | Eol => false
  | Cat r1 r2 | Alt r1 r2 => anchorFree r1 && anchorFree r2
  | Opt r1 | Plus r1 => anchorFree r1
  | _ => true
  end.

(** No [^] in the pattern: whether it matches does not depend on where
    in the input it is tried. *)
Fixpoint bolFree (r : regex) : bool :=
  match r with
  | Bol => false
  | Cat r1 r2 | Alt r1 r2 => bolFree r1 && bolFree r2
  | Opt r1 | Plus r1 => bolFree r1
  | _ => true
  end.

(** Every alternative ends with [$]. *)
Fixpoint endAnchored (r : regex) : bool :=
  match r with
  | Eol => true
  | Cat _ r2 => endAnchored r2
  | Alt r1 r2 => endAnchored r1 && endAnchored r2
  | _ => false
  end.

(** Can [r] consume the character [c]? *)
Fixpoint uses (c : ascii) (r : regex) : bool :=
  match r with
  | Chr c' => Ascii.eqb c' c
  | Cls lo hi => inClass lo hi c
  | Cat r1 r2 | Alt r1 r2 => uses c r1 || uses c r2
  | Opt r1 | Plus r1 => uses c r1
  | _ => false
  end.

(** A lower bound on the occurrences of [c] in what [r] consumes. *)
Fixpoint minCount (c : ascii) (r : regex) : nat :=
  match r with
  | Chr c' => if Ascii.eqb c' c then 1 else 0
  | Cat r1 r2 => minCount c r1 + minCount c r2
  | Alt r1 r2 => Nat.min (minCount c r1) (minCount c r2)
  | Plus r1 => minCount c r1
  | _ => 0
  end.

(** An upper bound on the occurrences of [c] in what [r] consumes, for
    a pattern without [+] (a [+] makes the bound 0 or useless). *)
Fixpoint maxCount (c : ascii) (r : regex) : nat :=
  match r with
  | Chr c' => if Ascii.eqb c' c then 1 else 0
  | Cls lo hi => if inClass lo hi c then 1 else 0
  | Cat r1 r2 => maxCount c r1 + maxCount c r2
  | Alt r1 r2 => Nat.max (maxCount c r1) (maxCount c r2)
  | Opt r1 => maxCount c r1
  | _ => 0
  end.

Fixpoint plusFree (r : regex) : bool :=
  match r with
  | Plus _ => false
  | Cat r1 r2 | Alt r1 r2 => plusFree r1 && plusFree r2
  | Opt r1 => plusFree r1
  | _ => true
  end.

(** An upper bound on the number of characters a [+]-free pattern
    consumes. *)
Fixpoint maxLen (r : regex) : nat :=
  match r with
  | Chr _ | Cls _ _ => 1
  | Cat r1 r2 => maxLen r1 + maxLen r2
  | Alt r1 r2 => Nat.max (maxLen r1) (maxLen r2)
  | Opt r1 => maxLen r1
  | _ => 0
  end.

End RegExp.

Fixpoint count (c : ascii) (s : string) : nat :=
  match s with
  | EmptyString => 0
  | String c' s' => (if Ascii.eqb c' c then 1 else 0) + count c s'
  end.

(** ** The program *)

Import JS RegExp.

Definition CRLF : string := String (ascii_of_nat 13) (String (ascii_of_nat 10) EmptyString).

(** [25[0-5]|2[0-4][0-9]|1[0-9][0-9]|[1-9][0-9]|[0-9]], the octet
    pattern that every regular expression of the program repeats. *)
Definition octet : regex :=
  Alt (Cat (Chr "2") (Cat (Chr "5") (Cls "0" "5")))
 (Alt (Cat (Chr "2") (Cat (Cls "0" "4") (Cls "0" "9")))
 (Alt (Cat (Chr "1") (Cat (Cls "0" "9") (Cls "0" "9")))
 (Alt (Cat (Cls "1" "9") (Cls "0" "9"))
      (Cls "0" "9")))).

(** [(?:octet\.){3}octet] *)
Definition dottedQuad : regex :=
  Cat (times 3 (Cat octet (Chr "."))) octet.

(** [([4-9]|(3[0-2]?)|(2[0-9]?)|(1[0-9]?))] *)
Definition prefixLength : regex :=
  Alt (Cls "4" "9")
 (Alt (Cat (Chr "3") (Opt (Cls "0" "2")))
 (Alt (Cat (Chr "2") (Opt (Cls "0" "9")))
      (Cat (Chr "1") (Opt (Cls "0" "9"))))).

(** [(\/prefixLength)] *)
Definition slashPrefix : regex := Cat (Chr "/") prefixLength.

(** [octet(\-octet)?] *)
Definition octetOrRange : regex := Cat octet (Opt (Cat (Chr "-") octet)).

(** [(?:octet(\-octet)?\.){3}octet(\-octet)?] *)
Definition hyphenQuad : regex :=
  Cat (times 3 (Cat octetOrRange (Chr "."))) octetOrRange.

Definition testStartStop : regex :=
  Cat (Cat dottedQuad (Cat (Chr "-") dottedQuad)) Eol.

Definition testNmapHyphenOrSingle : regex :=
  Cat hyphenQuad Eol.

Definition testCIDR : regex :=
  Cat (Cat dottedQuad (Plus slashPrefix)) Eol.

Definition testSingleIP : regex :=
  Cat Bol (Cat dottedQuad Eol).

Definition testAnyMatch : regex :=
  Alt (Cat (Cat dottedQuad (Cat (Chr "-") dottedQuad)) Eol)
 (Alt (Cat (Cat dottedQuad (Opt slashPrefix)) Eol)
      (Cat hyphenQuad Eol)).

Definition int2ip (ip : Z) : string :=
  toString (shr ip 24) ++ "." ++ toString (band (sar ip 16) 255) ++ "."
  ++ toString (band (sar ip 8) 255) ++ "." ++ toString (band ip 255).

Definition ip2int (ip : string) : Z :=
  shr (fold_left (fun ipInt octet => shl ipInt 8 + parseInt octet) (split ip ".") 0) 0.

Definition subnetMaskToNumber (mask : string) : Z :=
  band (shl 4294967295 (32 - Number mask)) 4294967295.

(** The list that one octet field of the per-octet notation stands for. *)
Definition octetValues (oct : string) : list Z :=
  if includes oct "-"
  then Lodash.range (Number (at_ (split oct "-") 0)) (Number (at_ (split oct "-") 1) + 1)
  else [Number oct].

(** The four grammars, in the order in which the loop body tests them. *)
Inductive grammar : Type := StartStop | CIDR | SingleIP | NmapHyphen | NoGrammar.

(** The conditions of the [if]/[else if] chain of the loop body: which
    branch takes the matched text. *)

Definition classify (tok : string) : grammar :=
  if test testStartStop tok then StartStop
  else if test testCIDR tok then CIDR
  else if test testSingleIP tok then SingleIP
  else if test testNmapHyphenOrSingle tok && negb (test testSingleIP tok) then NmapHyphen
  else NoGrammar.

(** What one iteration of the loop pushes on [addressList] for the
    matched text [tok] (the [if]/[else if] chain of the loop body). *)
Definition expand (tok : string) : list string :=
  match classify tok with
  | StartStop =>
      let startAddress := at_ (split tok "-") 0 in
      let endAddress := at_ (split tok "-") 1 in
      let startAddress := ip2int startAddress in
      let endAddress := ip2int endAddress in
      map int2ip (forUpTo startAddress endAddress)
  | CIDR =>
      let givenAddress := at_ (split tok "/") 0 in
      let cidrSize := at_ (split tok "/") 1 in
      let startAddress := ip2int givenAddress in
      let startAddress := band startAddress (subnetMaskToNumber cidrSize) in
      let endAddress := 2 ^ (32 - Number cidrSize) + startAddress - 1 in
      map int2ip (forUpTo startAddress endAddress)
  | SingleIP => [tok]
  | NmapHyphen =>
      let octs := split tok "." in
      let octA := octetValues (at_ octs 0) in
      let octB := octetValues (at_ octs 1) in
      let octC := octetValues (at_ octs 2) in
      let octD := octetValues (at_ octs 3) in
      flat_map (fun octetA =>
        flat_map (fun octetB =>
          flat_map (fun octetC =>
            map (fun octetD =>
                   toString octetA ++ "." ++ toString octetB ++ "."
                   ++ toString octetC ++ "." ++ toString octetD)
                octD) octC) octB) octA
  | NoGrammar => []
  end.

(** The text that the next iteration works on. *)
Definition carve (commandString tok : string) : string :=
  trim (replace commandString tok "").

(** The [while] loop of [ListIPAddresses]; [None] when [fuel]
    iterations do not reach the loop's exit. *)
Fixpoint ListIPAddresses_loop (fuel : nat) (addressList : list string)
    (commandString : string) : option (list string) :=
  match fuel with
  | O => None
  | S fuel' =>
      match str_match commandString testAnyMatch with
      | None => Some addressList
      | Some tok =>
          ListIPAddresses_loop fuel' (addressList ++ expand tok)%list (carve commandString tok)
      end
  end.

(** Every iteration shortens the text, so one more iteration than the
    text has characters is enough ([ListIPAddresses_loop_spec]). *)
Definition ListIPAddresses (commandString : string) : list string :=
  match ListIPAddresses_loop (S (String.length commandString)) [] commandString with
  | Some addressList => addressList
  | None => []
  end.

(** One object of the [data] array. *)
Record machine : Type := {
  IP : string;
  Latency : string;
  PortsClosed : string;
  PortsFiltered : string;
  PortsOpen : string
}.

(** [(a, b) => Number(a) - Number(b)] *)
Definition byNumber (a b : string) : Z := Number a - Number b.

(** [sortedports] of one machine. *)
Definition sortedPorts (m : machine) : list string :=
  let allports := PortsFiltered m ++ " " ++ PortsClosed m ++ " " ++ PortsOpen m in
  sort byNumber (split allports " ").

(** The state label appended after a port. *)
Definition stateLabel (m : machine) (port : string) : string :=
  if includes (PortsFiltered m) port then "filtered "
  else if includes (PortsOpen m) port then "open "
  else if includes (PortsClosed m) port then "closed "
  else "".

(** One pass of the loop over [sortedports]. *)
Definition portStep (pingScan : bool) (m : machine) (result word : string) : string :=
  if negb (String.eqb word "") then
    if negb pingScan then (result ++ word ++ "/tcp  ") ++ stateLabel m word ++ CRLF
    else result
  else result.

(** Is the machine reported? (the condition of the [if] in the loop
    over [data]) *)
Definition reported (targetlist : list string) (m : machine) : bool :=
  arrayIncludes targetlist (IP m)
  && (negb (String.eqb (PortsClosed m) "")
      || negb (String.eqb (PortsFiltered m) "")
      || negb (String.eqb (PortsOpen m) "")).

(** One pass of the loop over [data], on the pair of [result] and
    [scannedaddresses]. *)
Definition machineStep (pingScan : bool) (targetlist : list string)
    (st : string * Z) (m : machine) : string * Z :=
  let '(result, scannedaddresses) := st in
  if reported targetlist m then
    let scannedaddresses := scannedaddresses + 1 in
    let result := result ++ "Nmap scan report for " ++ IP m ++ CRLF in
    let result := result ++ "Host it up (" ++ Latency m ++ "s latency)." ++ CRLF in
    let result := if negb pingScan then result ++ "PORT         STATE    SERVICE" ++ CRLF else result in
    let result := fold_left (portStep pingScan m) (sortedPorts m) result in
    let result := if negb pingScan then result ++ CRLF else result in
    (result, scannedaddresses)
  else st.

Definition createPortScanResults (data : list machine) (commandString : string) : string :=
  let result := "Starting Nmap 7.95 ( https://nmap.org )" ++ CRLF in
  let scannedaddresses := 0 in
  let pingScan := includes commandString " -sn " || includes commandString " -PE " in
  let targetlist := ListIPAddresses commandString in
  let totaladdresses := Z.of_nat (List.length targetlist) in
  let '(result, scannedaddresses) :=
    fold_left (machineStep pingScan targetlist) data (result, scannedaddresses) in
  result ++ "Nmap done: " ++ toString totaladdresses ++ " IP addresses ("
         ++ toString scannedaddresses ++ " host up) scanned in 26.18 seconds" ++ CRLF.

(** ** Reference notions used to state the properties *)

(** The dotted-quad text of four octets. *)
Definition quad (a b c d : Z) : string :=
  toString a ++ "." ++ toString b ++ "." ++ toString c ++ "." ++ toString d.

(** The unsigned 32-bit value of four octets. *)
Definition quadValue (a b c d : Z) : Z :=
  a * 2 ^ 24 + b * 2 ^ 16 + c * 2 ^ 8 + d.

(** The dotted-quad text of an unsigned 32-bit value. *)
Definition quadOfValue (v : Z) : string :=
  quad (v / 2 ^ 24) (v / 2 ^ 16 mod 256) (v / 2 ^ 8 mod 256) (v mod 256).

Definition isOctet (a : Z) : Prop := 0 <= a <= 255.

(** The integers from [a] to [b] inclusive, ascending (empty when [b < a]). *)
Definition interval (a b : Z) : list Z :=
  map (fun k => a + Z.of_nat k) (seq 0 (Z.to_nat (b - a + 1))).

(** The text in front of a token ends where a token can start: it is
    empty, or its last character is one that no address grammar
    consumes (a space, for instance). *)
Definition tokenBoundary (p : string) : Prop :=
  p = "" \/ exists q c, p = q ++ String c "" /\ uses c testAnyMatch = false.

(** The tokens of the four grammars, built from their numbers. *)
Definition startStopToken (a b c d e f g h : Z) : string :=
  quad a b c d ++ "-" ++ quad e f g h.

Definition cidrToken (a b c d p : Z) : string :=
  quad a b c d ++ "/" ++ toString p.

(** One field of the per-octet notation: a bare integer or a
    hyphen-joined range. *)
Inductive field : Type :=
| Bare (a : Z)
| Span (lo hi : Z).

Definition fieldText (f : field) : string :=
  match f with
  | Bare a => toString a
  | Span lo hi => toString lo ++ "-" ++ toString hi
  end.

Definition fieldOk (f : field) : Prop :=
  match f with
  | Bare a => isOctet a
  | Span lo hi => isOctet lo /\ isOctet hi
  end.

(** A range field whose bounds are in order. *)
Definition fieldAscending (f : field) : Prop :=
  match f with
  | Bare _ => True
  | Span lo hi => lo <= hi
  end.

Definition isSpan (f : field) : bool :=
  match f with Bare _ => false | Span _ _ => true end.

(** The integers a field stands for, ascending. *)
Definition fieldValues (f : field) : list Z :=
  match f with
  | Bare a => [a]
  | Span lo hi => interval lo hi
  end.

Definition hyphenToken (f1 f2 f3 f4 : field) : string :=
  fieldText f1 ++ "." ++ fieldText f2 ++ "." ++ fieldText f3 ++ "." ++ fieldText f4.

(** The cartesian product of four lists of octets, the leftmost varying
    slowest, as dotted quads. *)
Definition octetMajor (A B C D : list Z) : list string :=
  flat_map (fun a => flat_map (fun b => flat_map (fun c =>
    map (fun d => quad a b c d) D) C) B) A.

(** The parts of the report. *)

Definition concatAll (l : list string) : string := fold_right append "" l.

Definition banner : string := "Starting Nmap 7.95 ( https://nmap.org )" ++ CRLF.

Definition notEmpty (word : string) : bool := negb (String.eqb word "").

(** The entries of [sortedports] for which a line is written. *)
Definition emittedPorts (m : machine) : list string :=
  filter notEmpty (sortedPorts m).

(** The order of the comparator [byNumber]. *)
Definition numLe (a b : string) : Prop := Number a <= Number b.

Definition portLine (m : machine) (port : string) : string :=
  port ++ "/tcp  " ++ stateLabel m port ++ CRLF.

(** The text written for one reported machine. *)
Definition hostBlock (pingScan : bool) (m : machine) : string :=
  "Nmap scan report for " ++ IP m ++ CRLF
  ++ "Host it up (" ++ Latency m ++ "s latency)." ++ CRLF
  ++ (if pingScan then ""
      else "PORT         STATE    SERVICE" ++ CRLF
           ++ concatAll (map (portLine m) (emittedPorts m)) ++ CRLF).

Definition trailer (requested up : Z) : string :=
  "Nmap done: " ++ toString requested ++ " IP addresses (" ++ toString up
  ++ " host up) scanned in 26.18 seconds" ++ CRLF.

Definition isPingScan (commandString : string) : bool :=
  includes commandString " -sn " || includes commandString " -PE ".

(** A natural number that a double holds exactly, with every natural
    number below it ([Number.isSafeInteger]): on its decimal text
    [Number] returns the number itself, and the subtraction of two such
    numbers in the comparator [byNumber] is exact. *)
Definition isSafeNatural (n : Z) : Prop := 0 <= n < 2 ^ 53.

(** A port category as the data has it: the decimal port numbers
    separated by single spaces, the empty text for no port. *)
Definition portsText (ports : list Z) : string :=
  String.concat " " (map toString ports).

Fixpoint allDigits (s : string) : bool :=
  match s with
  | EmptyString => true
  | String c s' => isDigit c && allDigits s'
  end.

(** The decimal digits, and the texts built from them, to tabulate what
    the octet pattern accepts. *)
Definition digitChars : list ascii := map digitChar [0; 1; 2; 3; 4; 5; 6; 7; 8; 9].

(** The texts of at most [k] decimal digits. *)
Fixpoint digitStrings (k : nat) : list string :=
  match k with
  | O => [""]
  | S k' => "" :: flat_map (fun c => map (String c) (digitStrings k')) digitChars
  end.

(** The decimal texts of the octets 0 to 255. *)
Definition octetTexts : list string := map (fun k => toString (Z.of_nat k)) (seq 0 256).

(** A dotted quad of four octets in decimal, without leading zeros. *)
Definition isAddress (x : string) : Prop :=
  exists a b c d, isOctet a /\ isOctet b /\ isOctet c /\ isOctet d /\ x = quad a b c d.

(** * Properties *)

(** ** Strings *)

Lemma append_nil_r (s : string) : s ++ "" = s.
Proof. induction s; simpl; congruence. Qed.

Lemma append_assoc (s t u : string) : (s ++ t) ++ u = s ++ t ++ u.
Proof. induction s; simpl; congruence. Qed.

Lemma length_append (s t : string) :
  String.length (s ++ t) = (String.length s + String.length t)%nat.
Proof. induction s; simpl; congruence. Qed.

Lemma length_zero_empty (s : string) : String.length s = 0%nat -> s = "".
Proof. destruct s; simpl; congruence. Qed.

Lemma append_same_length_inv (w s : string) :
  String.length (w ++ s) = String.length s -> w = "".
Proof. rewrite length_append. intros H. apply length_zero_empty. lia. Qed.

Lemma take_all (s : string) : take (String.length s) s = s.
Proof. induction s; simpl; congruence. Qed.

Lemma take_append (w s : string) : take (String.length w) (w ++ s) = w.
Proof. induction w; simpl; [destruct s; reflexivity | congruence]. Qed.

Lemma drop_append (w s : string) : drop (String.length w) (w ++ s) = s.
Proof. induction w; simpl; auto. Qed.

Lemma count_append (c : ascii) (s t : string) :
  count c (s ++ t) = (count c s + count c t)%nat.
Proof. induction s; simpl; [reflexivity | rewrite IHs; lia]. Qed.

Lemma startsWith_append (w s : string) : startsWith (w ++ s) w = true.
Proof. induction w; simpl; [reflexivity | rewrite Ascii.eqb_refl; assumption]. Qed.

Lemma startsWith_inv (s pat : string) :
  startsWith s pat = true -> exists t, s = pat ++ t.
Proof.
  revert s; induction pat as [|p pat IH]; intros s H; simpl in *.
  - exists s; reflexivity.
  - destruct s as [|c s]; [discriminate|].
    apply andb_true_iff in H as [Hc Hs]. apply Ascii.eqb_eq in Hc; subst.
    destruct (IH _ Hs) as [t ->]. exists t; reflexivity.
Qed.

(** ** The matcher against its declarative reading *)

Lemma in_progress (s x : string) (l : list string) :
  In x (progress s l) <-> In x l /\ (String.length x < String.length s)%nat.
Proof.
  unfold progress. rewrite filter_In, Nat.ltb_lt. tauto.
Qed.

Lemma star_start iter fuel s : In s (star iter fuel s).
Proof. destruct fuel; simpl; [left; reflexivity | apply in_or_app; right; left; reflexivity]. Qed.

Lemma star_sound n r (Hiter : forall s s', In s' (run n r s) -> Matches n r s s') :
  forall fuel s0 s', In s' (star (run n r) fuel s0) ->
  forall s, Matches n (Plus r) s s0 -> Matches n (Plus r) s s'.
Proof.
  induction fuel as [|fuel IH]; simpl; intros s0 s' Hin s Hs.
  - destruct Hin as [<-|[]]; assumption.
  - apply in_app_or in Hin as [Hin|[<-|[]]]; [|assumption].
    apply in_flat_map in Hin as (s1 & H1 & H2).
    apply in_progress in H1 as [H1 Hlt].
    eapply IH; [exact H2|]. eapply MPlusMore; eauto.
Qed.

Lemma run_sound n r : forall s s', In s' (run n r s) -> Matches n r s s'.
Proof.
  induction r; simpl; intros s s' Hin.
  - destruct Hin as [<-|[]]; constructor.
  - destruct s as [|c' s]; [destruct Hin|].
    destruct (Ascii.eqb_spec c c'); [|destruct Hin].
    destruct Hin as [<-|[]]; subst; constructor.
  - destruct s as [|c' s]; [destruct Hin|].
    destruct (inClass lo hi c') eqn:E; [|destruct Hin].
    destruct Hin as [<-|[]]; constructor; assumption.
  - apply in_flat_map in Hin as (s1 & H1 & H2). econstructor; eauto.
  - apply in_app_or in Hin as [H|H]; [apply MAltL | apply MAltR]; auto.
  - apply in_app_or in Hin as [H|[<-|[]]]; [|constructor].
    apply in_progress in H as [H Hlt]. apply MOptSome; auto.
  - apply in_flat_map in Hin as (s1 & H1 & H2).
    eapply star_sound; eauto. apply MPlusOne; auto.
  - destruct (Nat.eqb_spec (String.length s) n); [|destruct Hin].
    destruct Hin as [<-|[]]; constructor; assumption.
  - destruct s; [|destruct Hin]. destruct Hin as [<-|[]]; constructor.
Qed.

Ltac bounds :=
  simpl in *; intros;
  repeat match goal with
  | H : orb _ _ = false |- _ => apply orb_false_iff in H as [? ?]
  | H : andb _ _ = true |- _ => apply andb_true_iff in H as [? ?]
  | H : ?P -> _, H' : ?P |- _ => specialize (H H')
  | H : _ /\ _ |- _ => destruct H
  end;
  repeat match goal with |- context [count _ (_ ++ _)] => rewrite count_append end;
  repeat match goal with |- context [String.length (_ ++ _)] => rewrite length_append end;
  try discriminate; try lia; auto.

(** What a match consumes: a word [w] in front of what is left, with
    the static bounds of the pattern on its characters. *)
Lemma Matches_consumes n r s s' :
  Matches n r s s' ->
  exists w, s = w ++ s' /\
    forall c, (minCount c r <= count c w)%nat
      /\ (uses c r = false -> count c w = 0%nat)
      /\ (plusFree r = true -> (count c w <= maxCount c r)%nat
                               /\ (String.length w <= maxLen r)%nat).
Proof.
  induction 1 as [s | c s | lo hi c s Hc | r1 r2 s s1 s2 _ IH1 _ IH2
                 | r1 r2 s s' _ IH | r1 r2 s s' _ IH | r s | r s s' _ IH Hlt
                 | r s s' _ IH | r s s1 s2 _ IH1 _ IH2 Hlt | s Hn | ].
  - exists ""; split; [reflexivity|]. intros c0; repeat split; bounds.
  - exists (String c ""); split; [reflexivity|]. intros c0.
    simpl. destruct (Ascii.eqb c c0); repeat split; bounds.
  - exists (String c ""); split; [reflexivity|]. intros c0.
    simpl. destruct (Ascii.eqb_spec c c0); subst; try rewrite Hc;
      repeat split; bounds; destruct (inClass lo hi c0); lia.
  - destruct IH1 as (w1 & -> & B1), IH2 as (w2 & -> & B2).
    exists (w1 ++ w2); split; [symmetry; apply append_assoc|]. intros c.
    specialize (B1 c); specialize (B2 c). repeat split; bounds.
  - destruct IH as (w & -> & B).
    exists w; split; [reflexivity|]. intros c. specialize (B c). repeat split; bounds.
  - destruct IH as (w & -> & B).
    exists w; split; [reflexivity|]. intros c. specialize (B c). repeat split; bounds.
  - exists ""; split; [reflexivity|]. intros c0; repeat split; bounds.
  - destruct IH as (w & -> & B).
    exists w; split; [reflexivity|]. intros c. specialize (B c). repeat split; bounds.
  - destruct IH as (w & -> & B).
    exists w; split; [reflexivity|]. intros c. specialize (B c). repeat split; bounds.
  - destruct IH1 as (w1 & -> & B1), IH2 as (w2 & -> & B2).
    exists (w1 ++ w2); split; [symmetry; apply append_assoc|]. intros c.
    specialize (B1 c); specialize (B2 c). repeat split; bounds.
  - exists ""; split; [reflexivity|]. intros c0; repeat split; bounds.
  - exists ""; split; [reflexivity|]. intros c0; repeat split; bounds.
Qed.

Lemma Matches_length n r s s' :
  Matches n r s s' -> (String.length s' <= String.length s)%nat.
Proof.
  intros H. destruct (Matches_consumes _ _ _ _ H) as (w & -> & _).
  rewrite length_append. lia.
Qed.

Lemma star_extend iter :
  (forall s s', In s' (iter s) -> (String.length s' <= String.length s)%nat) ->
  forall fuel a x y,
    In x (star iter fuel a) -> In y (progress x (iter x)) ->
    (String.length a <= fuel)%nat -> In y (star iter fuel a).
Proof.
  intros Hlen. induction fuel as [|fuel IH]; simpl; intros a x y Hx Hy Hf.
  - destruct Hx as [<-|[]]. apply in_progress in Hy. lia.
  - apply in_or_app. left. apply in_app_or in Hx as [Hx|[<-|[]]].
    + apply in_flat_map in Hx as (b & Hb & Hx).
      apply in_flat_map. exists b; split; [assumption|].
      eapply IH; eauto. apply in_progress in Hb. lia.
    + apply in_flat_map. exists y; split; [assumption | apply star_start].
Qed.

Lemma run_complete n r s s' : Matches n r s s' -> In s' (run n r s).
Proof.
  induction 1 as [s | c s | lo hi c s Hc | r1 r2 s s1 s2 _ IH1 _ IH2
                 | r1 r2 s s' _ IH | r1 r2 s s' _ IH | r s | r s s' _ IH Hlt
                 | r s s' _ IH | r s s1 s2 H1 IH1 _ IH2 Hlt | s Hn | ]; simpl.
  - left; reflexivity.
  - rewrite Ascii.eqb_refl. left; reflexivity.
  - rewrite Hc. left; reflexivity.
  - apply in_flat_map. eauto.
  - apply in_or_app; auto.
  - apply in_or_app; auto.
  - apply in_or_app; right; left; reflexivity.
  - apply in_or_app; left. apply in_progress; auto.
  - apply in_flat_map. exists s'; split; [assumption | apply star_start].
  - simpl in IH1. apply in_flat_map in IH1 as (b & Hb & Hs1).
    apply in_flat_map. exists b; split; [assumption|].
    eapply star_extend; eauto.
    + intros u u' Hu. eapply Matches_length. apply run_sound; eauto.
    + apply in_progress; auto.
    + eapply Matches_length. apply run_sound; eauto.
  - rewrite Hn, Nat.eqb_refl. left; reflexivity.
  - left; reflexivity.
Qed.

Theorem run_Matches n r s s' : In s' (run n r s) <-> Matches n r s s'.
Proof. split; [apply run_sound | apply run_complete]. Qed.

(** A pattern without assertions matches regardless of what follows
    and of where in the input it is tried. *)
Lemma Matches_frame n n' r s s' t :
  anchorFree r = true -> Matches n r s s' -> Matches n' r (s ++ t) (s' ++ t).
Proof.
  intros Ha H; induction H; simpl in Ha;
    try (apply andb_true_iff in Ha as [Ha1 Ha2]); try discriminate.
  - constructor.
  - constructor.
  - constructor; assumption.
  - econstructor; eauto.
  - apply MAltL; auto.
  - apply MAltR; auto.
  - constructor.
  - apply MOptSome; auto. rewrite !length_append; lia.
  - apply MPlusOne; auto.
  - eapply MPlusMore; eauto. rewrite !length_append; lia.
Qed.

Lemma Matches_endAnchored n r s s' :
  endAnchored r = true -> Matches n r s s' -> s' = "".
Proof.
  intros Ha H; induction H; simpl in Ha; try discriminate; auto.
  - apply andb_true_iff in Ha as [Ha1 Ha2]; auto.
  - apply andb_true_iff in Ha as [Ha1 Ha2]; auto.
Qed.

(** A match of an end-anchored pattern consumes the whole remaining
    text, hence only characters the pattern can consume. *)
Lemma Matches_whole n r s s' :
  endAnchored r = true -> Matches n r s s' ->
  s' = "" /\ forall c, (minCount c r <= count c s)%nat
                       /\ (uses c r = false -> count c s = 0%nat)
                       /\ (plusFree r = true -> (count c s <= maxCount c r)%nat).
Proof.
  intros Ha H. pose proof (Matches_endAnchored _ _ _ _ Ha H) as ->.
  split; [reflexivity|]. intros c.
  destruct (Matches_consumes _ _ _ _ H) as (w & E & B).
  rewrite append_nil_r in E; subst w. destruct (B c) as (B1 & B2 & B3).
  repeat split; auto. intros P. apply B3; assumption.
Qed.

(** ** The search for the first matching start position *)

Lemma search_found n r s :
  endAnchored r = true -> Matches n r s "" -> search n r s = Some s.
Proof.
  intros Ha H. destruct s as [|c s]; simpl.
  - destruct (run n r "") as [|rest l] eqn:E.
    + apply run_complete in H. rewrite E in H. destruct H.
    + reflexivity.
  - destruct (run n r (String c s)) as [|rest l] eqn:E.
    + apply run_complete in H. rewrite E in H. destruct H.
    + assert (Hr : In rest (run n r (String c s))) by (rewrite E; left; reflexivity).
      apply run_sound in Hr. apply (Matches_endAnchored _ _ _ _ Ha) in Hr. subst rest.
      simpl. rewrite take_all. reflexivity.
Qed.

Lemma search_skip n r c s :
  run n r (String c s) = [] -> search n r (String c s) = search n r s.
Proof. intros H. simpl. rewrite H. reflexivity. Qed.

Lemma run_nil n r s : (forall s', ~ Matches n r s s') -> run n r s = [].
Proof.
  intros H. destruct (run n r s) as [|x l] eqn:E; [reflexivity|].
  exfalso. apply (H x). apply run_sound. rewrite E. left; reflexivity.
Qed.

(** Text in front of a token does not take part in the match when the
    character just before the token is one the pattern cannot consume. *)
Lemma search_boundary n r c q t :
  endAnchored r = true -> uses c r = false ->
  search n r ((q ++ String c "") ++ t) = search n r t.
Proof.
  intros Ha Hc. rewrite append_assoc. simpl.
  induction q as [|c' q IH].
  - change ("" ++ String c t) with (String c t). apply search_skip. apply run_nil.
    intros s' H. destruct (Matches_whole _ _ _ _ Ha H) as (_ & B).
    destruct (B c) as (_ & B2 & _). specialize (B2 Hc).
    simpl in B2. rewrite Ascii.eqb_refl in B2. discriminate.
  - change (String c' q ++ String c t) with (String c' (q ++ String c t)).
    rewrite search_skip; [assumption|]. apply run_nil.
    intros s' H. destruct (Matches_whole _ _ _ _ Ha H) as (_ & B).
    destruct (B c) as (_ & B2 & _). specialize (B2 Hc).
    simpl in B2. rewrite count_append in B2. simpl in B2.
    rewrite Ascii.eqb_refl in B2. lia.
Qed.

Lemma search_none n r s :
  (forall v u s', s = v ++ u -> ~ Matches n r u s') -> search n r s = None.
Proof.
  induction s as [|c s IH]; intros H.
  - simpl. rewrite run_nil; [reflexivity|]. intros s'. apply (H "" ""). reflexivity.
  - rewrite search_skip.
    + apply IH. intros v u s' E. apply (H (String c v) u s'). simpl. congruence.
    + apply run_nil. intros s'. apply (H "" (String c s)). reflexivity.
Qed.

Lemma search_unfold n r s :
  search n r s =
  match run n r s with
  | rest :: _ => Some (take (String.length s - String.length rest) s)
  | [] => match s with "" => None | String _ s' => search n r s' end
  end.
Proof. destruct s; reflexivity. Qed.

Lemma search_some_inv n r s tok :
  search n r s = Some tok ->
  exists v u s', s = v ++ u /\ Matches n r u s' /\ u = tok ++ s'.
Proof.
  revert tok. induction s as [|c s IH]; intros tok; rewrite search_unfold.
  - destruct (run n r "") as [|rest l] eqn:E; [discriminate|].
    intros [= <-]. exists "", "", rest.
    assert (Hr : Matches n r "" rest) by (apply run_sound; rewrite E; left; reflexivity).
    pose proof (Matches_length _ _ _ _ Hr) as Hl. simpl in Hl.
    assert (rest = "") by (apply length_zero_empty; lia). subst. auto.
  - destruct (run n r (String c s)) as [|rest l] eqn:E.
    + intros H. destruct (IH _ H) as (v & u & s' & -> & Hm & Hu).
      exists (String c v), u, s'. auto.
    + assert (Hr : Matches n r (String c s) rest)
        by (apply run_sound; rewrite E; left; reflexivity).
      assert (Ht : String c s
                   = take (String.length (String c s) - String.length rest) (String c s)
                     ++ rest).
      { destruct (Matches_consumes _ _ _ _ Hr) as (w & Ew & _).
        rewrite Ew. rewrite length_append.
        replace (String.length w + String.length rest - String.length rest)%nat
          with (String.length w) by lia.
        rewrite take_append. reflexivity. }
      intros [= <-]. exists "", (String c s), rest.
      split; [reflexivity|]. split; [assumption|]. exact Ht.
Qed.

Lemma search_some n r s v u s' :
  s = v ++ u -> Matches n r u s' -> exists tok, search n r s = Some tok.
Proof.
  intros E H. destruct (search n r s) eqn:S; [eauto|]. exfalso.
  subst s. induction v as [|c v IH]; simpl in S.
  - destruct u; simpl in S.
    + destruct (run n r "") eqn:R; [|discriminate].
      apply run_complete in H. rewrite R in H. destruct H.
    + destruct (run n r (String a u)) eqn:R; [|discriminate].
      apply run_complete in H. rewrite R in H. destruct H.
  - change (String c v ++ u) with (String c (v ++ u)) in S. simpl in S.
    destruct (run n r (String c (v ++ u))); [auto | discriminate].
Qed.

Lemma test_true r s v u s' :
  s = v ++ u -> Matches (String.length s) r u s' -> test r s = true.
Proof.
  intros E H. unfold test, exec.
  destruct (search_some _ _ _ _ _ _ E H) as (tok & ->). reflexivity.
Qed.

Lemma test_false r s :
  (forall v u s', s = v ++ u -> ~ Matches (String.length s) r u s') -> test r s = false.
Proof. intros H. unfold test, exec. rewrite search_none; auto. Qed.

(** ** Numerals *)

Lemma allDigits_append s t : allDigits (s ++ t) = allDigits s && allDigits t.
Proof. induction s; simpl; [reflexivity | rewrite IHs, andb_assoc; reflexivity]. Qed.

Lemma allDigits_count c s : allDigits s = true -> isDigit c = false -> count c s = 0%nat.
Proof.
  intros Hs Hc. induction s as [|c' s IH]; simpl in *; [reflexivity|].
  apply andb_true_iff in Hs as [Hd Hs]. rewrite (IH Hs).
  destruct (Ascii.eqb_spec c' c); [congruence | reflexivity].
Qed.

Lemma parseDigits_append acc s t :
  parseDigits acc (s ++ t) = parseDigits (parseDigits acc s) t.
Proof. revert acc; induction s; simpl; auto. Qed.

Lemma digitChar_spec d :
  0 <= d <= 9 -> isDigit (digitChar d) = true /\ digitValue (digitChar d) = d.
Proof.
  intros H. unfold isDigit, digitValue, digitChar.
  rewrite nat_ascii_embedding by lia.
  split; [apply andb_true_iff; split; apply Nat.leb_le; lia | lia].
Qed.

(** [digitsOf] writes the decimal digits of [n] in front of [acc]. *)
Lemma digitsOf_spec fuel : forall n acc,
  0 <= n < 2 ^ Z.of_nat fuel ->
  exists ds, digitsOf fuel n acc = ds ++ acc /\ allDigits ds = true
             /\ (fuel <> 0%nat -> ds <> "")
             /\ forall a, parseDigits a ds = a * 10 ^ Z.of_nat (String.length ds) + n.
Proof.
  induction fuel as [|fuel IH]; intros n acc Hn.
  - exists ""; simpl in *. repeat split; auto. intros a; lia.
  - cbn [digitsOf]. set (d := n mod 10).
    assert (Hd : 0 <= d <= 9) by (subst d; pose proof (Z.mod_pos_bound n 10); lia).
    destruct (digitChar_spec d Hd) as [Hd1 Hd2].
    destruct (Z.eqb_spec (n / 10) 0) as [E|E].
    + exists (String (digitChar d) ""). simpl. rewrite Hd1, Hd2.
      repeat split; auto; [discriminate|].
      intros a. subst d. pose proof (Z.div_mod n 10). lia.
    + destruct (IH (n / 10) (String (digitChar d) acc)) as (ds & E1 & E2 & _ & E3).
      { rewrite Nat2Z.inj_succ, Z.pow_succ_r in Hn by lia.
        split; [apply Z.div_pos; lia|].
        apply Z.div_lt_upper_bound; lia. }
      exists (ds ++ String (digitChar d) ""). rewrite E1. split; [|split; [|split]].
      * rewrite append_assoc. reflexivity.
      * rewrite allDigits_append, E2. simpl. rewrite Hd1. reflexivity.
      * intros _. destruct ds; discriminate.
      * intros a. rewrite parseDigits_append, E3. simpl. rewrite Hd2.
        rewrite length_append. simpl String.length.
        rewrite Nat2Z.inj_add, Z.pow_add_r by lia. change (10 ^ Z.of_nat 1) with 10.
        subst d. pose proof (Z.div_mod n 10). lia.
Qed.

Lemma toString_spec n :
  0 <= n -> allDigits (toString n) = true /\ parseDigits 0 (toString n) = n
            /\ toString n <> "".
Proof.
  intros Hn. unfold toString. destruct (Z.ltb_spec n 0); [lia|].
  destruct (digitsOf_spec (S (Z.to_nat (Z.log2 n))) n "") as (ds & E1 & E2 & E3 & E4).
  { split; [assumption|]. rewrite Nat2Z.inj_succ, Z2Nat.id by apply Z.log2_nonneg.
    destruct (Z.eq_dec n 0) as [->|]; [reflexivity|].
    apply Z.log2_spec. lia. }
  rewrite E1, append_nil_r. split; [assumption|]. split.
  - rewrite E4. lia.
  - apply E3. discriminate.
Qed.

Lemma toString_digits n : 0 <= n -> allDigits (toString n) = true.
Proof. intros H; apply toString_spec; assumption. Qed.

Lemma Number_toString n : 0 <= n -> Number (toString n) = n.
Proof. intros H; apply toString_spec; assumption. Qed.

Lemma parseInt_toString n : 0 <= n -> parseInt (toString n) = n.
Proof. intros H; apply toString_spec; assumption. Qed.

Lemma toString_count c n : 0 <= n -> isDigit c = false -> count c (toString n) = 0%nat.
Proof. intros H Hc. apply allDigits_count; [apply toString_digits|]; assumption. Qed.

(** ** Splitting *)

Lemma split_not_nil s c : split s c <> [].
Proof.
  induction s as [|c' s IH]; simpl; [discriminate|].
  destruct (Ascii.eqb c' c); [discriminate|].
  destruct (split s c); [contradiction | discriminate].
Qed.

Lemma split_nosep s c : count c s = 0%nat -> split s c = [s].
Proof.
  induction s as [|c' s IH]; simpl; [reflexivity|].
  destruct (Ascii.eqb c' c); [discriminate|]. simpl. intros H. rewrite (IH H). reflexivity.
Qed.

Lemma split_append s1 s2 c :
  count c s1 = 0%nat -> split (s1 ++ String c s2) c = s1 :: split s2 c.
Proof.
  induction s1 as [|c' s1 IH]; simpl.
  - rewrite Ascii.eqb_refl. reflexivity.
  - destruct (Ascii.eqb c' c); [discriminate|]. simpl. intros H. rewrite (IH H). reflexivity.
Qed.

(** ** 32-bit arithmetic *)

Lemma ToInt32_small x : - 2 ^ 31 <= x < 2 ^ 31 -> ToInt32 x = x.
Proof. intros H. unfold ToInt32. rewrite Z.mod_small; lia. Qed.

Lemma ToInt32_range x : - 2 ^ 31 <= ToInt32 x < 2 ^ 31.
Proof. unfold ToInt32. pose proof (Z.mod_pos_bound (x + 2 ^ 31) (2 ^ 32)). lia. Qed.

Lemma ToInt32_mod x : ToInt32 x mod 2 ^ 32 = x mod 2 ^ 32.
Proof.
  unfold ToInt32. rewrite Zminus_mod_idemp_l.
  f_equal. lia.
Qed.

Lemma ToInt32_cases x :
  ToInt32 x = x mod 2 ^ 32 \/ ToInt32 x = x mod 2 ^ 32 - 2 ^ 32.
Proof.
  pose proof (ToInt32_mod x) as H. pose proof (ToInt32_range x) as R.
  pose proof (Z.mod_pos_bound x (2 ^ 32)) as B.
  destruct (Z.lt_ge_cases (ToInt32 x) 0).
  - right. rewrite <- H.
    rewrite <- (Z_mod_plus_full (ToInt32 x) 1 (2 ^ 32)).
    rewrite Z.mod_small; lia.
  - left. rewrite <- H. rewrite Z.mod_small; lia.
Qed.

Lemma land_255 x : Z.land x 255 = x mod 256.
Proof. change 255 with (Z.ones 8). rewrite Z.land_ones by lia. reflexivity. Qed.

Lemma land_neg_pow2 x k : 0 <= k -> Z.land x (- 2 ^ k) = x / 2 ^ k * 2 ^ k.
Proof.
  intros Hk. replace (- 2 ^ k) with (Z.lnot (Z.ones k)).
  - rewrite <- Z.ldiff_land, Z.ldiff_ones_r by assumption.
    rewrite Z.shiftl_mul_pow2, Z.shiftr_div_pow2 by assumption. reflexivity.
  - rewrite Z.ones_equiv. unfold Z.lnot. lia.
Qed.

(** The octet of [x] at bit [k], read from the signed or from the
    unsigned 32-bit form. *)
Lemma octet_of_ToInt32 x k :
  0 <= k <= 24 -> (ToInt32 x / 2 ^ k) mod 256 = (x mod 2 ^ 32 / 2 ^ k) mod 256.
Proof.
  intros Hk. destruct (ToInt32_cases x) as [->| ->]; [reflexivity|].
  replace (x mod 2 ^ 32 - 2 ^ 32)
    with (x mod 2 ^ 32 + (- 2 ^ (32 - k)) * 2 ^ k).
  - rewrite Z.div_add by (apply Z.pow_nonzero; lia).
    replace (- 2 ^ (32 - k)) with ((- 2 ^ (24 - k)) * 256).
    + rewrite Z_mod_plus_full. reflexivity.
    + change 256 with (2 ^ 8). rewrite Z.mul_opp_l, <- Z.pow_add_r by lia.
      f_equal. f_equal. lia.
  - rewrite Z.mul_opp_l, <- Z.pow_add_r by lia. replace (32 - k + k) with 32 by lia. lia.
Qed.

Lemma int2ip_spec i : int2ip i = quadOfValue (i mod 2 ^ 32).
Proof.
  unfold int2ip, quadOfValue, quad, shr, band, sar, ToUint32.
  change (24 mod 32) with 24. change (16 mod 32) with 16. change (8 mod 32) with 8.
  rewrite !Z.shiftr_div_pow2 by lia.
  change (ToInt32 255) with 255.
  rewrite !land_255.
  pose proof (ToInt32_range i) as R.
  assert (R16 : - 2 ^ 31 <= ToInt32 i / 2 ^ 16 < 2 ^ 31).
  { split; [apply Z.div_le_lower_bound | apply Z.div_lt_upper_bound]; lia. }
  assert (R8 : - 2 ^ 31 <= ToInt32 i / 2 ^ 8 < 2 ^ 31).
  { split; [apply Z.div_le_lower_bound | apply Z.div_lt_upper_bound]; lia. }
  rewrite (ToInt32_small _ R16), (ToInt32_small _ R8).
  rewrite !octet_of_ToInt32 by lia.
  pose proof (octet_of_ToInt32 i 0) as H0. change (2 ^ 0) with 1 in H0.
  rewrite !Z.div_1_r in H0. rewrite H0 by lia.
  reflexivity.
Qed.

Lemma allDigits_bound ds : allDigits ds = true ->
  forall acc, 0 <= acc ->
  acc * 10 ^ Z.of_nat (String.length ds) <= parseDigits acc ds
  < (acc + 1) * 10 ^ Z.of_nat (String.length ds).
Proof.
  induction ds as [|c ds IH]; intros Hd acc Ha.
  - simpl. lia.
  - simpl in Hd. apply andb_true_iff in Hd as [Hc Hd].
    assert (Hv : 0 <= digitValue c <= 9).
    { unfold isDigit in Hc. apply andb_true_iff in Hc as [H1 H2].
      apply Nat.leb_le in H1, H2. unfold digitValue. lia. }
    specialize (IH Hd (acc * 10 + digitValue c) ltac:(lia)).
    cbn [parseDigits String.length]. rewrite Nat2Z.inj_succ, Z.pow_succ_r by lia.
    nia.
Qed.

Lemma toString_short n k :
  0 <= n -> (String.length (toString n) <= k)%nat -> n < 10 ^ Z.of_nat k.
Proof.
  intros Hn Hk. destruct (toString_spec n Hn) as (Hd & Hp & _).
  pose proof (allDigits_bound _ Hd 0 ltac:(lia)) as B. rewrite Hp in B.
  assert (10 ^ Z.of_nat (String.length (toString n)) <= 10 ^ Z.of_nat k)
    by (apply Z.pow_le_mono_r; lia).
  lia.
Qed.

(** ** [ip2int] on a dotted quad *)

Lemma quad_unfold a b c d :
  quad a b c d
  = toString a ++ String "." (toString b ++ String "." (toString c ++ String "." (toString d))).
Proof. reflexivity. Qed.

Lemma isDigit_dot : isDigit "." = false. Proof. reflexivity. Qed.
Lemma isDigit_hyphen : isDigit "-" = false. Proof. reflexivity. Qed.
Lemma isDigit_slash : isDigit "/" = false. Proof. reflexivity. Qed.
Lemma isDigit_space : isDigit " " = false. Proof. reflexivity. Qed.

Lemma split_quad a b c d :
  isOctet a -> isOctet b -> isOctet c -> isOctet d ->
  split (quad a b c d) "." = [toString a; toString b; toString c; toString d].
Proof.
  unfold isOctet. intros Ha Hb Hc Hd. rewrite quad_unfold.
  rewrite !split_append by (apply toString_count; [lia | reflexivity]).
  rewrite split_nosep by (apply toString_count; [lia | reflexivity]).
  reflexivity.
Qed.

Lemma shl8_small x : 0 <= x < 2 ^ 23 -> shl x 8 = x * 256.
Proof.
  intros H. unfold shl. change (8 mod 32) with 8.
  rewrite (ToInt32_small x) by lia.
  rewrite Z.shiftl_mul_pow2 by lia. change (2 ^ 8) with 256.
  apply ToInt32_small. lia.
Qed.

Lemma shl8_last x d :
  0 <= x < 2 ^ 24 -> 0 <= d < 256 -> shr (shl x 8 + d) 0 = x * 256 + d.
Proof.
  intros Hx Hd. unfold shr, shl, ToUint32. change (8 mod 32) with 8. change (0 mod 32) with 0.
  rewrite Z.shiftr_0_r.
  rewrite (ToInt32_small x) by lia.
  rewrite Z.shiftl_mul_pow2 by lia. change (2 ^ 8) with 256.
  rewrite <- Zplus_mod_idemp_l, ToInt32_mod, Zplus_mod_idemp_l.
  apply Z.mod_small. lia.
Qed.

Lemma ip2int_quad a b c d :
  isOctet a -> isOctet b -> isOctet c -> isOctet d ->
  ip2int (quad a b c d) = quadValue a b c d.
Proof.
  unfold isOctet. intros Ha Hb Hc Hd. unfold ip2int.
  rewrite split_quad by assumption. cbn [fold_left].
  rewrite !parseInt_toString by lia.
  change (shl 0 8) with 0. rewrite Z.add_0_l.
  rewrite (shl8_small a) by lia.
  rewrite (shl8_small (a * 256 + b)) by lia.
  rewrite shl8_last by lia.
  unfold quadValue. lia.
Qed.

Lemma quadValue_range a b c d :
  isOctet a -> isOctet b -> isOctet c -> isOctet d ->
  0 <= quadValue a b c d < 2 ^ 32.
Proof. unfold isOctet, quadValue. lia. Qed.

Lemma quadOfValue_quadValue a b c d :
  isOctet a -> isOctet b -> isOctet c -> isOctet d ->
  quadOfValue (quadValue a b c d) = quad a b c d.
Proof.
  unfold isOctet, quadOfValue, quadValue. intros Ha Hb Hc Hd.
  f_equal.
  - symmetry. apply (Z.div_unique _ _ _ (b * 2 ^ 16 + c * 2 ^ 8 + d)); lia.
  - rewrite <- (Z.div_unique (a * 2 ^ 24 + b * 2 ^ 16 + c * 2 ^ 8 + d) (2 ^ 16)
               (a * 2 ^ 8 + b) (c * 2 ^ 8 + d)) by lia.
    symmetry. apply (Z.mod_unique _ _ a); lia.
  - rewrite <- (Z.div_unique (a * 2 ^ 24 + b * 2 ^ 16 + c * 2 ^ 8 + d) (2 ^ 8)
               (a * 2 ^ 16 + b * 2 ^ 8 + c) d) by lia.
    symmetry. apply (Z.mod_unique _ _ (a * 2 ^ 8 + b)); lia.
  - symmetry. apply (Z.mod_unique _ _ (a * 2 ^ 16 + b * 2 ^ 8 + c)); lia.
Qed.

(** ** The grammars on tokens built from numbers *)

Lemma octet_accepts a : isOctet a -> In "" (run 0 octet (toString a)).
Proof.
  intros [H0 H255].
  assert (H : forallb (fun k => existsb (String.eqb "")
                                  (run 0 octet (toString (Z.of_nat k))))
                (seq 0 256) = true) by (vm_compute; reflexivity).
  rewrite forallb_forall in H. specialize (H (Z.to_nat a)).
  rewrite Z2Nat.id in H by assumption.
  assert (Hin : In (Z.to_nat a) (seq 0 256)) by (apply in_seq; lia).
  apply H in Hin. apply existsb_exists in Hin as (x & Hx & E).
  apply String.eqb_eq in E. subst x. assumption.
Qed.

Lemma Matches_word n r w t :
  anchorFree r = true -> In "" (run 0 r w) -> Matches n r (w ++ t) t.
Proof.
  intros Ha H. apply run_sound in H.
  apply (Matches_frame 0 n r w "" t Ha) in H. exact H.
Qed.

Lemma octet_Matches n a t : isOctet a -> Matches n octet (toString a ++ t) t.
Proof. intros H. apply Matches_word; [reflexivity | apply octet_accepts; assumption]. Qed.

Lemma dottedQuad_Matches n a b c d t :
  isOctet a -> isOctet b -> isOctet c -> isOctet d ->
  Matches n dottedQuad (quad a b c d ++ t) t.
Proof.
  intros Ha Hb Hc Hd. rewrite quad_unfold. unfold dottedQuad. cbn [times].
  repeat (rewrite append_assoc; cbn [append]).
  repeat (eapply MCat; [|]); try apply MChr; try (apply octet_Matches; assumption).
Qed.

Lemma count_quad x a b c d :
  isDigit x = false -> isOctet a -> isOctet b -> isOctet c -> isOctet d ->
  count x (quad a b c d) = (3 * count x ".")%nat.
Proof.
  unfold isOctet. intros Hx Ha Hb Hc Hd. rewrite quad_unfold.
  repeat (rewrite count_append; cbn [count]).
  rewrite !toString_count by (assumption || lia). lia.
Qed.

Lemma count_suffix x v u : (count x u <= count x (v ++ u))%nat.
Proof. rewrite count_append. lia. Qed.

Lemma count_split x s :
  (1 <= count x s)%nat -> exists y z, s = y ++ String x z /\ count x y = 0%nat.
Proof.
  induction s as [|c s IH]; simpl; [lia|].
  destruct (Ascii.eqb_spec c x) as [->|N]; intros H.
  - exists "", s. auto.
  - destruct (IH H) as (y & z & -> & Hy). exists (String c y), z. simpl.
    destruct (Ascii.eqb_spec c x); [contradiction | auto].
Qed.

Lemma append_inv_head x a b : x ++ a = x ++ b -> a = b.
Proof. induction x; simpl; intros H; [assumption | injection H; auto]. Qed.

Lemma split_first_unique c x y x' y' :
  x ++ String c y = x' ++ String c y' -> count c x = 0%nat -> count c x' = 0%nat ->
  x = x' /\ y = y'.
Proof.
  intros E Hx Hx'. pose proof (f_equal (fun s => split s c) E) as S. cbv beta in S.
  rewrite !split_append in S by assumption. injection S as -> _.
  apply append_inv_head in E. injection E as ->. auto.
Qed.

Lemma endAnchored_any : endAnchored testAnyMatch = true. Proof. reflexivity. Qed.

(** The text matched at the tail of a command whose last token is
    [tok]. *)
Lemma str_match_token p tok :
  tokenBoundary p ->
  Matches (String.length (p ++ tok)) testAnyMatch tok "" ->
  str_match (p ++ tok) testAnyMatch = Some tok.
Proof.
  intros [->|(q & c & -> & Hc)] H; unfold str_match, exec.
  - apply search_found; [reflexivity | assumption].
  - rewrite search_boundary by (reflexivity || assumption).
    apply search_found; [reflexivity | assumption].
Qed.

Lemma str_match_token_none p tok :
  tokenBoundary p ->
  (forall v u s', tok = v ++ u -> ~ Matches (String.length (p ++ tok)) testAnyMatch u s') ->
  str_match (p ++ tok) testAnyMatch = None.
Proof.
  intros [->|(q & c & -> & Hc)] H; unfold str_match, exec.
  - apply search_none. assumption.
  - rewrite search_boundary by (reflexivity || assumption).
    apply search_none. assumption.
Qed.

(** *** Start-stop tokens *)

Section StartStopTokens.
Variables a b c d e f g h : Z.
Hypothesis (Ha : isOctet a) (Hb : isOctet b) (Hc : isOctet c) (Hd : isOctet d).
Hypothesis (He : isOctet e) (Hf : isOctet f) (Hg : isOctet g) (Hh : isOctet h).

Let tok := startStopToken a b c d e f g h.

Lemma startStop_body n t :
  Matches n (Cat dottedQuad (Cat (Chr "-") dottedQuad)) (tok ++ t) t.
Proof.
  unfold tok, startStopToken. rewrite append_assoc.
  eapply MCat; [apply dottedQuad_Matches; assumption|].
  cbn [append]. eapply MCat; [apply MChr|].
  apply dottedQuad_Matches; assumption.
Qed.

Lemma startStop_Matches n : Matches n testStartStop tok "".
Proof.
  unfold testStartStop. eapply MCat; [|apply MEol].
  rewrite <- (append_nil_r tok) at 1. apply startStop_body.
Qed.

Lemma startStop_any n : Matches n testAnyMatch tok "".
Proof. apply MAltL. apply startStop_Matches. Qed.

Lemma classify_startStop : classify tok = StartStop.
Proof.
  unfold classify. rewrite (test_true testStartStop tok "" tok ""); auto.
  apply startStop_Matches.
Qed.

Lemma split_startStop : split tok "-" = [quad a b c d; quad e f g h].
Proof.
  unfold tok, startStopToken. cbn [append].
  rewrite split_append by (rewrite count_quad by (assumption || reflexivity); reflexivity).
  rewrite split_nosep by (rewrite count_quad by (assumption || reflexivity); reflexivity).
  reflexivity.
Qed.

Lemma expand_startStop :
  expand tok = map quadOfValue (interval (quadValue a b c d) (quadValue e f g h)).
Proof.
  unfold expand. rewrite classify_startStop, split_startStop. unfold at_. cbn [nth].
  rewrite !ip2int_quad by assumption.
  unfold forUpTo, interval. rewrite !map_map. apply map_ext_in.
  intros k Hk. apply in_seq in Hk. rewrite int2ip_spec. f_equal.
  pose proof (quadValue_range a b c d Ha Hb Hc Hd).
  pose proof (quadValue_range e f g h He Hf Hg Hh).
  apply Z.mod_small. lia.
Qed.
End StartStopTokens.

(** *** CIDR tokens *)

Lemma prefixLength_accepts p : 1 <= p <= 32 -> In "" (run 0 prefixLength (toString p)).
Proof.
  intros [H1 H32].
  assert (H : forallb (fun k => existsb (String.eqb "")
                                  (run 0 prefixLength (toString (Z.of_nat (S k)))))
                (seq 0 32) = true) by (vm_compute; reflexivity).
  rewrite forallb_forall in H. specialize (H (Z.to_nat (p - 1))).
  rewrite Nat2Z.inj_succ, Z2Nat.id in H by lia.
  replace (Z.succ (p - 1)) with p in H by lia.
  assert (Hin : In (Z.to_nat (p - 1)) (seq 0 32)) by (apply in_seq; lia).
  apply H in Hin. apply existsb_exists in Hin as (x & Hx & E).
  apply String.eqb_eq in E. subst x. assumption.
Qed.

Lemma prefixLength_inv n p :
  0 <= p -> Matches n prefixLength (toString p) "" -> 1 <= p <= 32.
Proof.
  intros Hp H.
  assert (Hlt : p < 100).
  { destruct (Matches_consumes _ _ _ _ H) as (w & E & B).
    rewrite append_nil_r in E. subst w.
    destruct (B "0"%char) as (_ & _ & B3). destruct (B3 eq_refl) as [_ L].
    apply (toString_short p 2 Hp). exact L. }
  apply (Matches_frame n 0 prefixLength _ _ "" eq_refl) in H.
  rewrite append_nil_r in H.
  apply run_complete in H.
  assert (T : forallb (fun k =>
                implb (existsb (String.eqb "") (run 0 prefixLength (toString (Z.of_nat k))))
                      ((1 <=? Z.of_nat k) && (Z.of_nat k <=? 32)))
                (seq 0 100) = true) by (vm_compute; reflexivity).
  rewrite forallb_forall in T. specialize (T (Z.to_nat p)).
  rewrite Z2Nat.id in T by assumption.
  assert (Hin : In (Z.to_nat p) (seq 0 100)) by (apply in_seq; lia).
  apply T in Hin.
  assert (X : existsb (String.eqb "") (run 0 prefixLength (toString p)) = true).
  { apply existsb_exists. exists "". split; [assumption | reflexivity]. }
  rewrite X in Hin. simpl in Hin. apply andb_true_iff in Hin as [A B].
  apply Z.leb_le in A, B. lia.
Qed.

Lemma subnetMask_spec p :
  1 <= p <= 32 -> subnetMaskToNumber (toString p) = - 2 ^ (32 - p).
Proof.
  intros Hp. unfold subnetMaskToNumber. rewrite Number_toString by lia.
  assert (Hk : 2 ^ (32 - p) <= 2 ^ 31) by (apply Z.pow_le_mono_r; lia).
  assert (Hk0 : 0 < 2 ^ (32 - p)) by (apply Z.pow_pos_nonneg; lia).
  assert (E : shl 4294967295 (32 - p) = - 2 ^ (32 - p)).
  { unfold shl. change (ToInt32 4294967295) with (-1).
    rewrite Z.mod_small by lia. rewrite Z.shiftl_mul_pow2 by lia.
    rewrite ToInt32_small; lia. }
  rewrite E. unfold band. change (ToInt32 4294967295) with (-1).
  rewrite Z.land_m1_r. apply ToInt32_small. lia.
Qed.

(** Masking the signed form of [v] gives the network address of [v], up
    to a multiple of 2^32. *)
Lemma band_mask_spec v p :
  0 <= v < 2 ^ 32 -> 1 <= p <= 32 ->
  let net := v / 2 ^ (32 - p) * 2 ^ (32 - p) in
  (band v (- 2 ^ (32 - p)) = net \/ band v (- 2 ^ (32 - p)) = net - 2 ^ 32)
  /\ 0 <= net /\ net + 2 ^ (32 - p) <= 2 ^ 32.
Proof.
  intros Hv Hp net.
  assert (Hk : 2 ^ (32 - p) <= 2 ^ 31) by (apply Z.pow_le_mono_r; lia).
  assert (Hk0 : 0 < 2 ^ (32 - p)) by (apply Z.pow_pos_nonneg; lia).
  assert (HM0 : 0 < 2 ^ p) by (apply Z.pow_pos_nonneg; lia).
  assert (HKM : 2 ^ p * 2 ^ (32 - p) = 2 ^ 32).
  { rewrite <- Z.pow_add_r by lia. f_equal. lia. }
  split.
  - unfold band. rewrite (ToInt32_small (- 2 ^ (32 - p))) by lia.
    rewrite land_neg_pow2 by lia.
    destruct (ToInt32_cases v) as [->| ->]; rewrite (Z.mod_small v) by lia.
    + left. reflexivity.
    + right. replace (v - 2 ^ 32) with (v + (- 2 ^ p) * 2 ^ (32 - p)) by lia.
      rewrite Z.div_add by lia. subst net. lia.
  - subst net. set (K := 2 ^ (32 - p)) in *. set (q := v / K).
    assert (0 <= q) by (apply Z.div_pos; lia).
    assert (q < 2 ^ p) by (apply Z.div_lt_upper_bound; lia).
    nia.
Qed.

Section CidrTokens.
Variables a b c d p : Z.
Hypothesis (Ha : isOctet a) (Hb : isOctet b) (Hc : isOctet c) (Hd : isOctet d).
Hypothesis (Hp : 1 <= p <= 32).

Let tok := cidrToken a b c d p.

Lemma slashPrefix_Matches n : Matches n slashPrefix (String "/" (toString p)) "".
Proof.
  unfold slashPrefix. eapply MCat; [apply MChr|].
  rewrite <- (append_nil_r (toString p)).
  apply Matches_word; [reflexivity | apply prefixLength_accepts; assumption].
Qed.

Lemma cidr_Matches n : Matches n testCIDR tok "".
Proof.
  unfold testCIDR, tok, cidrToken. eapply MCat; [|apply MEol].
  eapply MCat; [apply dottedQuad_Matches; assumption|]. cbn [append].
  apply MPlusOne. apply slashPrefix_Matches.
Qed.

Lemma cidr_any n : Matches n testAnyMatch tok "".
Proof.
  apply MAltR, MAltL. unfold tok, cidrToken. eapply MCat; [|apply MEol].
  eapply MCat; [apply dottedQuad_Matches; assumption|]. cbn [append].
  apply MOptSome; [apply slashPrefix_Matches | simpl; lia].
Qed.

Lemma count_cidr x :
  isDigit x = false -> count x tok = (3 * count x "." + count x "/")%nat.
Proof.
  intros Hx. unfold tok, cidrToken. rewrite count_append, count_quad by assumption.
  cbn [append count]. rewrite toString_count by (assumption || lia). lia.
Qed.

Lemma classify_cidr : classify tok = CIDR.
Proof.
  unfold classify. rewrite test_false.
  - rewrite (test_true testCIDR tok "" tok ""); auto. apply cidr_Matches.
  - intros v u s' E H. destruct (Matches_whole _ testStartStop _ _ eq_refl H) as (_ & B).
    destruct (B "-"%char) as (B1 & _). change (minCount "-" testStartStop) with 1%nat in B1.
    pose proof (count_suffix "-" v u) as S. rewrite <- E, count_cidr in S by reflexivity.
    simpl in S. lia.
Qed.

Lemma split_cidr : split tok "/" = [quad a b c d; toString p].
Proof.
  unfold tok, cidrToken. cbn [append].
  rewrite split_append by (rewrite count_quad by (assumption || reflexivity); reflexivity).
  rewrite split_nosep by (apply toString_count; [lia | reflexivity]).
  reflexivity.
Qed.

Lemma expand_cidr :
  let size := 2 ^ (32 - p) in
  let net := quadValue a b c d / size * size in
  expand tok = map quadOfValue (interval net (net + size - 1)).
Proof.
  intros size net. unfold expand. rewrite classify_cidr, split_cidr.
  unfold at_. cbn [nth].
  rewrite ip2int_quad, subnetMask_spec, Number_toString by (assumption || lia).
  pose proof (quadValue_range a b c d Ha Hb Hc Hd) as Hv.
  destruct (band_mask_spec (quadValue a b c d) p Hv Hp) as (E & N0 & N1).
  fold size in E, N0, N1 |- *. fold net in E, N0, N1.
  assert (Hs : 0 < size) by (apply Z.pow_pos_nonneg; lia).
  set (start := band (quadValue a b c d) (- size)) in *.
  unfold forUpTo, interval.
  replace (size + start - 1 - start + 1) with size by lia.
  replace (net + size - 1 - net + 1) with size by lia.
  rewrite !map_map. apply map_ext_in.
  intros k Hk. apply in_seq in Hk. rewrite int2ip_spec. f_equal.
  destruct E as [-> | ->].
  - apply Z.mod_small. lia.
  - replace (net - 2 ^ 32 + Z.of_nat k) with (net + Z.of_nat k + (-1) * 2 ^ 32) by lia.
    rewrite Z_mod_plus_full. apply Z.mod_small. lia.
Qed.
End CidrTokens.

(** *** Single addresses *)

Section SingleTokens.
Variables a b c d : Z.
Hypothesis (Ha : isOctet a) (Hb : isOctet b) (Hc : isOctet c) (Hd : isOctet d).

Let tok := quad a b c d.

Lemma dottedQuad_whole n : Matches n dottedQuad tok "".
Proof. rewrite <- (append_nil_r tok). apply dottedQuad_Matches; assumption. Qed.

Lemma single_any n : Matches n testAnyMatch tok "".
Proof.
  apply MAltR, MAltL. eapply MCat; [|apply MEol].
  eapply MCat; [apply dottedQuad_whole | apply MOptNone].
Qed.

Lemma single_Matches : Matches (String.length tok) testSingleIP tok "".
Proof.
  unfold testSingleIP. eapply MCat; [apply MBol; reflexivity|].
  eapply MCat; [apply dottedQuad_whole | apply MEol].
Qed.

Lemma classify_single : classify tok = SingleIP.
Proof.
  unfold classify. rewrite test_false.
  - rewrite test_false.
    + rewrite (test_true testSingleIP tok "" tok ""); auto. apply single_Matches.
    + intros v u s' E H. destruct (Matches_whole _ testCIDR _ _ eq_refl H) as (_ & B).
      destruct (B "/"%char) as (B1 & _). change (minCount "/" testCIDR) with 1%nat in B1.
      pose proof (count_suffix "/" v u) as S.
      rewrite <- E in S. unfold tok in S. rewrite count_quad in S by (assumption || reflexivity).
      simpl in S. lia.
  - intros v u s' E H. destruct (Matches_whole _ testStartStop _ _ eq_refl H) as (_ & B).
    destruct (B "-"%char) as (B1 & _). change (minCount "-" testStartStop) with 1%nat in B1.
    pose proof (count_suffix "-" v u) as S.
    rewrite <- E in S. unfold tok in S. rewrite count_quad in S by (assumption || reflexivity).
    simpl in S. lia.
Qed.

Lemma expand_single : expand tok = [tok].
Proof. unfold expand. rewrite classify_single. reflexivity. Qed.
End SingleTokens.

(** *** Per-octet ranges *)

Lemma includes_absent s c : count c s = 0%nat -> includes s (String c "") = false.
Proof.
  unfold includes. induction s as [|c' s IH]; [reflexivity|].
  cbn [count indexOf startsWith]. destruct (Ascii.eqb_spec c' c) as [->|N].
  - discriminate.
  - rewrite (proj2 (Ascii.eqb_neq c c')) by congruence. simpl.
    intros H. specialize (IH H). destruct (indexOf s (String c "")); [discriminate | reflexivity].
Qed.

Lemma includes_present x y c : includes (x ++ String c y) (String c "") = true.
Proof.
  unfold includes. induction x as [|c' x IH]; cbn [append indexOf startsWith].
  - rewrite Ascii.eqb_refl. reflexivity.
  - destruct (Ascii.eqb c c'); simpl; [reflexivity|].
    destruct (indexOf (x ++ String c y) (String c "")); [reflexivity | discriminate].
Qed.

Lemma range_ascending lo hi : lo <= hi -> Lodash.range lo (hi + 1) = interval lo hi.
Proof.
  intros H. unfold Lodash.range, interval.
  destruct (Z.ltb_spec lo (hi + 1)); [|lia].
  rewrite Z.div_1_r, Z.max_l by lia.
  replace (hi + 1 - lo) with (hi - lo + 1) by lia.
  apply map_ext. intros k. lia.
Qed.

Lemma count_field x f :
  isDigit x = false -> fieldOk f ->
  count x (fieldText f) = if isSpan f then count x "-" else 0%nat.
Proof.
  intros Hx. destruct f as [a|lo hi]; simpl.
  - intros Ha. apply toString_count; [apply Ha | assumption].
  - intros [Hlo Hhi]. rewrite count_append. cbn [count].
    rewrite !toString_count by (assumption || apply Hlo || apply Hhi).
    simpl. destruct (Ascii.eqb "-" x); lia.
Qed.

Lemma octetOrRange_Matches n f t :
  fieldOk f -> Matches n octetOrRange (fieldText f ++ t) t.
Proof.
  destruct f as [a|lo hi]; simpl; unfold octetOrRange.
  - intros Ha. eapply MCat; [apply octet_Matches; assumption | apply MOptNone].
  - intros [Hlo Hhi]. rewrite append_assoc. cbn [append].
    eapply MCat; [apply octet_Matches; assumption|].
    apply MOptSome.
    + eapply MCat; [apply MChr | apply octet_Matches; assumption].
    + cbn [String.length]. rewrite length_append. lia.
Qed.

Lemma octetValues_field f :
  fieldOk f -> fieldAscending f -> octetValues (fieldText f) = fieldValues f.
Proof.
  destruct f as [a|lo hi]; simpl; unfold octetValues.
  - intros Ha _. rewrite includes_absent by (apply toString_count; [apply Ha | reflexivity]).
    rewrite Number_toString by apply Ha. reflexivity.
  - intros [Hlo Hhi] Hle. cbn [append]. rewrite includes_present.
    rewrite split_append by (apply toString_count; [apply Hlo | reflexivity]).
    rewrite split_nosep by (apply toString_count; [apply Hhi | reflexivity]).
    unfold at_. cbn [nth]. rewrite !Number_toString by (apply Hlo || apply Hhi).
    apply range_ascending. assumption.
Qed.

Section HyphenTokens.
Variables f1 f2 f3 f4 : field.
Hypothesis (H1 : fieldOk f1) (H2 : fieldOk f2) (H3 : fieldOk f3) (H4 : fieldOk f4).

Let tok := hyphenToken f1 f2 f3 f4.

Lemma hyphenToken_unfold :
  tok = fieldText f1 ++ String "." (fieldText f2 ++ String "."
          (fieldText f3 ++ String "." (fieldText f4))).
Proof. reflexivity. Qed.

Lemma hyphenQuad_Matches n : Matches n hyphenQuad tok "".
Proof.
  rewrite hyphenToken_unfold. unfold hyphenQuad. cbn [times].
  rewrite <- (append_nil_r (fieldText f4)).
  pose proof (fun f t H => octetOrRange_Matches n f t H) as F.
  eapply MCat; [eapply MCat; [|eapply MCat] |];
    [eapply MCat; [apply F; assumption | apply MChr] ..| apply F; assumption].
Qed.

Lemma hyphen_Matches n : Matches n testNmapHyphenOrSingle tok "".
Proof. eapply MCat; [apply hyphenQuad_Matches | apply MEol]. Qed.

Lemma hyphen_any n : Matches n testAnyMatch tok "".
Proof. apply MAltR, MAltR. apply hyphen_Matches. Qed.

Lemma count_hyphenToken x :
  isDigit x = false ->
  count x tok
  = (3 * count x "."
     + ((if isSpan f1 then 1 else 0) + (if isSpan f2 then 1 else 0)
        + (if isSpan f3 then 1 else 0) + (if isSpan f4 then 1 else 0)) * count x "-")%nat.
Proof.
  intros Hx. rewrite hyphenToken_unfold.
  repeat (rewrite count_append; cbn [count]).
  rewrite !count_field by assumption.
  destruct (isSpan f1), (isSpan f2), (isSpan f3), (isSpan f4); cbn [count]; lia.
Qed.

Lemma split_hyphen :
  split tok "." = [fieldText f1; fieldText f2; fieldText f3; fieldText f4].
Proof.
  assert (D : forall f, fieldOk f -> count "." (fieldText f) = 0%nat).
  { intros f Hf. rewrite count_field by (assumption || reflexivity).
    destruct (isSpan f); reflexivity. }
  rewrite hyphenToken_unfold.
  rewrite !split_append by (apply D; assumption).
  rewrite split_nosep by (apply D; assumption).
  reflexivity.
Qed.

Hypothesis Hspan : isSpan f1 || isSpan f2 || isSpan f3 || isSpan f4 = true.

Lemma classify_hyphen : classify tok = NmapHyphen.
Proof.
  assert (Hh : (1 <= count "-" tok)%nat).
  { rewrite count_hyphenToken by reflexivity.
    destruct (isSpan f1), (isSpan f2), (isSpan f3), (isSpan f4);
      try discriminate; simpl; lia. }
  assert (NS : test testSingleIP tok = false).
  { apply test_false. intros v u s' E H. unfold testSingleIP in H.
    pose proof (Matches_whole _ (Cat Bol (Cat dottedQuad Eol)) _ _ eq_refl H) as (_ & B).
    destruct (B "-"%char) as (_ & _ & B3). specialize (B3 eq_refl).
    change (maxCount "-" (Cat Bol (Cat dottedQuad Eol))) with 0%nat in B3.
    inversion H as [| | |r1 r2 s0 s1 s2 Hb Hq| | | | | | | |]; subst.
    inversion Hb; subst.
    assert (v = "").
    { apply (append_same_length_inv v s1). rewrite <- E. symmetry. assumption. }
    subst v. simpl in E. subst s1. lia. }
  unfold classify. rewrite test_false.
  - rewrite test_false.
    + rewrite NS. rewrite (test_true testNmapHyphenOrSingle tok "" tok ""); auto.
      apply hyphen_Matches.
    + intros v u s' E H. destruct (Matches_whole _ testCIDR _ _ eq_refl H) as (_ & B).
      destruct (B "/"%char) as (B1 & _). change (minCount "/" testCIDR) with 1%nat in B1.
      pose proof (count_suffix "/" v u) as S.
      rewrite <- E, count_hyphenToken in S by reflexivity.
      simpl in S. lia.
  - intros v u s' E H. destruct (Matches_whole _ testStartStop _ _ eq_refl H) as (_ & B).
    destruct (B "."%char) as (B1 & _). change (minCount "." testStartStop) with 6%nat in B1.
    pose proof (count_suffix "." v u) as S.
    rewrite <- E, count_hyphenToken in S by reflexivity.
    simpl in S. lia.
Qed.

Hypothesis (A1 : fieldAscending f1) (A2 : fieldAscending f2)
           (A3 : fieldAscending f3) (A4 : fieldAscending f4).

Lemma expand_hyphen :
  expand tok
  = octetMajor (fieldValues f1) (fieldValues f2) (fieldValues f3) (fieldValues f4).
Proof.
  unfold expand. rewrite classify_hyphen, split_hyphen. unfold at_. cbn [nth].
  rewrite !octetValues_field by assumption. reflexivity.
Qed.
End HyphenTokens.

(** *** Prefix lengths that no grammar accepts *)

Section RejectedPrefix.
Variables a b c d p : Z.
Hypothesis (Ha : isOctet a) (Hb : isOctet b) (Hc : isOctet c) (Hd : isOctet d).
Hypothesis (Hp0 : 0 <= p) (Hp : ~ 1 <= p <= 32).

Let tok := cidrToken a b c d p.

Lemma cidrToken_unfold : tok = quad a b c d ++ String "/" (toString p).
Proof. reflexivity. Qed.

Lemma count_cidrToken x :
  isDigit x = false -> count x tok = (3 * count x "." + count x "/")%nat.
Proof.
  intros Hx. rewrite cidrToken_unfold, count_append, count_quad by assumption.
  cbn [count]. rewrite toString_count by assumption. lia.
Qed.

(** A suffix of the token without its slash lies within the digits
    of the prefix length. *)
Lemma suffix_after_slash v u :
  tok = v ++ u -> count "/" u = 0%nat -> count "." u = 0%nat.
Proof.
  intros E Hu.
  pose proof (count_cidrToken "/" eq_refl) as C. rewrite E, count_append, Hu in C.
  simpl in C. destruct (count_split "/" v ltac:(lia)) as (x & y & -> & Hx).
  rewrite append_assoc in E. cbn [append] in E. rewrite cidrToken_unfold in E.
  apply split_first_unique in E as [_ E];
    [|rewrite count_quad by (assumption || reflexivity); reflexivity | assumption].
  pose proof (count_suffix "." y u) as S. rewrite <- E in S.
  rewrite toString_count in S by (assumption || reflexivity). lia.
Qed.

Lemma cidr_rejected n v u s' : tok = v ++ u -> ~ Matches n testAnyMatch u s'.
Proof.
  intros E H. unfold testAnyMatch in H.
  inversion H as [| | | |r1 r2 s0 s0' H1|r1 r2 s0 s0' H1| | | | | |]; subst; clear H.
  - (* start-stop *)
    destruct (Matches_whole _ _ _ _ (eq_refl : endAnchored testStartStop = true) H1)
      as (_ & B).
    destruct (B "-"%char) as (B1 & _). change (minCount "-" testStartStop) with 1%nat in B1.
    pose proof (count_suffix "-" v u) as S.
    rewrite <- E, count_cidrToken in S by reflexivity. simpl in S. lia.
  - inversion H1 as [| | | |r1 r2 s0 s0' H2|r1 r2 s0 s0' H2| | | | | |]; subst; clear H1.
    + (* dotted quad with an optional prefix length *)
      inversion H2 as [| | |r1 r2 s0 s1 s2 H3 H4| | | | | | | |]; subst; clear H2.
      inversion H4; subst; clear H4.
      inversion H3 as [| | |r1 r2 s0 s1 s2 H5 H6| | | | | | | |]; subst; clear H3.
      destruct (Matches_consumes _ _ _ _ H5) as (w & -> & B).
      destruct (B "/"%char) as (_ & B2 & _). specialize (B2 eq_refl).
      destruct (B "."%char) as (B1 & _). change (minCount "." dottedQuad) with 3%nat in B1.
      inversion H6 as [| | | | | |r s0|r s0 s0' H7 Hlt| | | |]; subst; clear H6.
      * rewrite append_nil_r in E. pose proof (suffix_after_slash _ _ E B2). lia.
      * unfold slashPrefix in H7.
        inversion H7 as [| | |r1 r2 s0 s1' s2 H8 H9| | | | | | | |]; subst; clear H7.
        inversion H8; subst; clear H8.
        pose proof (count_cidrToken "/" eq_refl) as C.
        rewrite E, !count_append in C. cbn [count] in C. simpl in C.
        rewrite <- append_assoc in E. rewrite cidrToken_unfold in E.
        apply split_first_unique in E as [_ E];
          [|rewrite count_quad by (assumption || reflexivity); reflexivity
           |rewrite count_append; lia].
        subst s1'. apply prefixLength_inv in H9; [contradiction | assumption].
    + (* per-octet notation *)
      destruct (Matches_whole _ _ _ _
                  (eq_refl : endAnchored testNmapHyphenOrSingle = true) H2) as (_ & B).
      destruct (B "/"%char) as (_ & B2 & _). specialize (B2 eq_refl).
      destruct (B "."%char) as (B1 & _).
      change (minCount "." testNmapHyphenOrSingle) with 3%nat in B1.
      pose proof (suffix_after_slash _ _ E B2). lia.
Qed.

Lemma str_match_rejected q :
  tokenBoundary q -> str_match (q ++ tok) testAnyMatch = None.
Proof.
  intros Hq. apply str_match_token_none; [assumption|].
  intros v u s' E. eapply cidr_rejected; eassumption.
Qed.
End RejectedPrefix.

(** ** The loop of [ListIPAddresses] *)

Lemma trimStart_length s : (String.length (trimStart s) <= String.length s)%nat.
Proof. induction s as [|c s IH]; simpl; [lia|]. destruct (isWhiteSpace c); simpl; lia. Qed.

Lemma trimEnd_length s : (String.length (trimEnd s) <= String.length s)%nat.
Proof.
  induction s as [|c s IH]; simpl; [lia|].
  destruct (trimEnd s); [destruct (isWhiteSpace c)|]; simpl in *; lia.
Qed.

Lemma trim_length s : (String.length (trim s) <= String.length s)%nat.
Proof.
  unfold trim. pose proof (trimEnd_length (trimStart s)). pose proof (trimStart_length s). lia.
Qed.

Lemma drop_length n s : String.length (drop n s) = (String.length s - n)%nat.
Proof. revert s; induction n as [|n IH]; intros [|c s]; simpl; auto. Qed.

Lemma replace_unfold s pat rep :
  replace s pat rep
  = if startsWith s pat then rep ++ drop (String.length pat) s
    else match s with
         | "" => ""
         | String c s' => String c (replace s' pat rep)
         end.
Proof. destruct s; reflexivity. Qed.

(** Replacing an occurrence by the empty string removes as many
    characters as the pattern has. *)
Lemma replace_length v pat w :
  (String.length (replace (v ++ pat ++ w) pat "") + String.length pat
   = String.length (v ++ pat ++ w))%nat.
Proof.
  induction v as [|c v IH].
  - cbn [append]. rewrite replace_unfold, startsWith_append.
    cbn [append]. rewrite drop_length, length_append. lia.
  - cbn [append]. set (s := v ++ pat ++ w) in *.
    rewrite replace_unfold. destruct (startsWith (String c s) pat) eqn:E.
    + apply startsWith_inv in E as (t & E). rewrite E.
      cbn [append]. rewrite drop_length, length_append. lia.
    + cbn [String.length]. lia.
Qed.

Lemma count_le_length c s : (count c s <= String.length s)%nat.
Proof. induction s as [|c' s IH]; simpl; [lia|]. destruct (Ascii.eqb c' c); lia. Qed.

(** What [str_match] returns is a nonempty suffix of the text. *)
Lemma str_match_suffix cmd tok :
  str_match cmd testAnyMatch = Some tok ->
  (exists v, cmd = v ++ tok) /\ tok <> "".
Proof.
  intros H. apply search_some_inv in H as (v & u & s' & E & H & Eu).
  destruct (Matches_whole _ testAnyMatch _ _ eq_refl H) as (-> & B).
  rewrite append_nil_r in Eu. subst u. split; [eauto|].
  destruct (B "."%char) as (B1 & _). change (minCount "." testAnyMatch) with 3%nat in B1.
  intros ->. simpl in B1. lia.
Qed.

Lemma carve_shorter cmd tok :
  str_match cmd testAnyMatch = Some tok ->
  (String.length (carve cmd tok) < String.length cmd)%nat.
Proof.
  intros H. apply str_match_suffix in H as ((v & ->) & N).
  unfold carve. pose proof (trim_length (replace (v ++ tok) tok "")) as T.
  pose proof (replace_length v tok "") as R. rewrite append_nil_r in R.
  assert (0 < String.length tok)%nat by (destruct tok; [congruence | simpl; lia]).
  lia.
Qed.

Lemma loop_terminates fuel : forall acc cmd,
  (String.length cmd < fuel)%nat ->
  exists res, ListIPAddresses_loop fuel acc cmd = Some res.
Proof.
  induction fuel as [|fuel IH]; intros acc cmd Hf; [lia|].
  cbn [ListIPAddresses_loop].
  destruct (str_match cmd testAnyMatch) as [tok|] eqn:E; [|eauto].
  apply IH. apply carve_shorter in E. lia.
Qed.

Lemma loop_more_fuel fuel : forall fuel' acc cmd res,
  ListIPAddresses_loop fuel acc cmd = Some res -> (fuel <= fuel')%nat ->
  ListIPAddresses_loop fuel' acc cmd = Some res.
Proof.
  induction fuel as [|fuel IH]; intros fuel' acc cmd res H Hf; [discriminate|].
  destruct fuel' as [|fuel']; [lia|]. cbn [ListIPAddresses_loop] in *.
  destruct (str_match cmd testAnyMatch) as [tok|]; [|assumption].
  apply (IH fuel'); [assumption | lia].
Qed.

Lemma loop_acc fuel : forall acc cmd,
  ListIPAddresses_loop fuel acc cmd
  = option_map (app acc) (ListIPAddresses_loop fuel [] cmd).
Proof.
  induction fuel as [|fuel IH]; intros acc cmd; [reflexivity|].
  cbn [ListIPAddresses_loop].
  destruct (str_match cmd testAnyMatch) as [tok|].
  - rewrite (IH (acc ++ expand tok)%list), (IH ([] ++ expand tok)%list).
    destruct (ListIPAddresses_loop fuel [] (carve cmd tok)); simpl; [|reflexivity].
    rewrite app_assoc. reflexivity.
  - simpl. rewrite app_nil_r. reflexivity.
Qed.

Lemma ListIPAddresses_loop_spec cmd fuel :
  (String.length cmd < fuel)%nat ->
  ListIPAddresses_loop fuel [] cmd = Some (ListIPAddresses cmd).
Proof.
  intros Hf. unfold ListIPAddresses.
  destruct (loop_terminates (S (String.length cmd)) [] cmd ltac:(lia)) as (res & E).
  rewrite E. apply (loop_more_fuel _ fuel _ _ _ E). lia.
Qed.

(** One iteration: the matched text is expanded, then the carved text
    is parsed. *)
Lemma ListIPAddresses_step cmd tok :
  str_match cmd testAnyMatch = Some tok ->
  ListIPAddresses cmd = (expand tok ++ ListIPAddresses (carve cmd tok))%list.
Proof.
  intros H.
  pose proof (ListIPAddresses_loop_spec cmd (S (String.length cmd)) ltac:(lia)) as E.
  cbn [ListIPAddresses_loop] in E. rewrite H in E.
  rewrite loop_acc in E.
  rewrite ListIPAddresses_loop_spec in E by (apply carve_shorter in H; lia).
  simpl in E. injection E as <-. reflexivity.
Qed.

Lemma ListIPAddresses_done cmd :
  str_match cmd testAnyMatch = None -> ListIPAddresses cmd = [].
Proof. intros H. unfold ListIPAddresses. cbn [ListIPAddresses_loop]. rewrite H. reflexivity. Qed.

(** ** The shape of a matched token

    Whatever [str_match] returns has the shape that the branch taking
    it reads: the array reads of the loop body are within bounds. *)

Lemma length_split s c : List.length (split s c) = S (count c s).
Proof.
  induction s as [|c' s IH]; [reflexivity|]. cbn [split count].
  destruct (Ascii.eqb c' c); cbn [List.length]; [lia|].
  pose proof (split_not_nil s c) as N.
  destruct (split s c); [contradiction|]. cbn [List.length] in *. lia.
Qed.

Lemma test_true_inv r s :
  test r s = true -> exists v u s', s = v ++ u /\ Matches (String.length s) r u s'.
Proof.
  unfold test, exec. destruct (search (String.length s) r s) as [tok|] eqn:E; [|discriminate].
  intros _. apply search_some_inv in E as (v & u & s' & E1 & E2 & _). eauto.
Qed.

Lemma str_match_Matches cmd tok :
  str_match cmd testAnyMatch = Some tok ->
  Matches (String.length cmd) testAnyMatch tok "".
Proof.
  intros H. apply search_some_inv in H as (v & u & s' & E & H & Eu).
  destruct (Matches_whole _ testAnyMatch _ _ eq_refl H) as (-> & _).
  rewrite append_nil_r in Eu. subst u. assumption.
Qed.

Lemma Matches_bolFree n n' r s s' :
  bolFree r = true -> Matches n r s s' -> Matches n' r s s'.
Proof.
  intros Hb H; induction H; simpl in Hb;
    try (apply andb_true_iff in Hb as [Hb1 Hb2]); try discriminate.
  - constructor.
  - constructor.
  - constructor; assumption.
  - econstructor; eauto.
  - apply MAltL; auto.
  - apply MAltR; auto.
  - constructor.
  - apply MOptSome; auto.
  - apply MPlusOne; auto.
  - eapply MPlusMore; eauto.
  - constructor.
Qed.

Lemma anyMatch_cases n tok :
  Matches n testAnyMatch tok "" ->
  Matches n testStartStop tok ""
  \/ Matches n (Cat (Cat dottedQuad (Opt slashPrefix)) Eol) tok ""
  \/ Matches n testNmapHyphenOrSingle tok "".
Proof.
  unfold testAnyMatch. intros H.
  inversion H as [| | | |r1 r2 s0 s0' H1|r1 r2 s0 s0' H1| | | | | |]; subst; [auto|].
  inversion H1 as [| | | |r1 r2 s0 s0' H2|r1 r2 s0 s0' H2| | | | | |]; subst; auto.
Qed.

(** The counts of the separators in a token of each grammar. *)
Lemma startStop_counts n tok :
  Matches n testStartStop tok "" ->
  count "-" tok = 1%nat /\ count "." tok = 6%nat /\ count "/" tok = 0%nat.
Proof.
  intros H. destruct (Matches_whole _ testStartStop _ _ eq_refl H) as (_ & B).
  destruct (B "-"%char) as (A1 & _ & A3), (B "."%char) as (B1 & _ & B3),
           (B "/"%char) as (_ & C2 & _).
  specialize (A3 eq_refl). specialize (B3 eq_refl). specialize (C2 eq_refl).
  change (minCount "-" testStartStop) with 1%nat in A1.
  change (maxCount "-" testStartStop) with 1%nat in A3.
  change (minCount "." testStartStop) with 6%nat in B1.
  change (maxCount "." testStartStop) with 6%nat in B3.
  lia.
Qed.

Lemma quadPrefix_counts n tok :
  Matches n (Cat (Cat dottedQuad (Opt slashPrefix)) Eol) tok "" ->
  count "-" tok = 0%nat /\ count "." tok = 3%nat /\ (count "/" tok <= 1)%nat.
Proof.
  intros H.
  destruct (Matches_whole _ (Cat (Cat dottedQuad (Opt slashPrefix)) Eol) _ _ eq_refl H)
    as (_ & B).
  destruct (B "-"%char) as (_ & A2 & _), (B "."%char) as (B1 & _ & B3),
           (B "/"%char) as (_ & _ & C3).
  specialize (A2 eq_refl). specialize (B3 eq_refl). specialize (C3 eq_refl).
  change (minCount "." (Cat (Cat dottedQuad (Opt slashPrefix)) Eol)) with 3%nat in B1.
  change (maxCount "." (Cat (Cat dottedQuad (Opt slashPrefix)) Eol)) with 3%nat in B3.
  change (maxCount "/" (Cat (Cat dottedQuad (Opt slashPrefix)) Eol)) with 1%nat in C3.
  lia.
Qed.

Lemma hyphen_counts n tok :
  Matches n testNmapHyphenOrSingle tok "" ->
  count "." tok = 3%nat /\ count "/" tok = 0%nat.
Proof.
  intros H. destruct (Matches_whole _ testNmapHyphenOrSingle _ _ eq_refl H) as (_ & B).
  destruct (B "."%char) as (B1 & _ & B3), (B "/"%char) as (_ & C2 & _).
  specialize (B3 eq_refl). specialize (C2 eq_refl).
  change (minCount "." testNmapHyphenOrSingle) with 3%nat in B1.
  change (maxCount "." testNmapHyphenOrSingle) with 3%nat in B3.
  lia.
Qed.

(** A field of the per-octet notation has no dot and at most one hyphen. *)
Lemma octetOrRange_word n s s' :
  Matches n octetOrRange s s' ->
  exists w, s = w ++ s' /\ count "." w = 0%nat /\ (count "-" w <= 1)%nat.
Proof.
  intros H. destruct (Matches_consumes _ _ _ _ H) as (w & E & B).
  exists w. split; [assumption|].
  destruct (B "."%char) as (_ & B2 & _), (B "-"%char) as (_ & _ & C3).
  specialize (B2 eq_refl). destruct (C3 eq_refl) as [C3' _].
  change (maxCount "-" octetOrRange) with 1%nat in C3'. auto.
Qed.

Lemma hyphen_fields n tok :
  Matches n testNmapHyphenOrSingle tok "" ->
  exists f1 f2 f3 f4,
    split tok "." = [f1; f2; f3; f4]
    /\ Forall (fun f => (count "-" f <= 1)%nat) [f1; f2; f3; f4].
Proof.
  unfold testNmapHyphenOrSingle, hyphenQuad. cbn [times]. intros H.
  inversion H as [| | |r1 r2 s0 s1 s2 H1 H2| | | | | | | |]; subst; clear H.
  inversion H2; subst; clear H2.
  inversion H1 as [| | |r1 r2 s0 s1 s2 H3 H4| | | | | | | |]; subst; clear H1.
  apply octetOrRange_word in H4 as (w4 & E4 & D4 & Y4). rewrite append_nil_r in E4. subst s1.
  inversion H3 as [| | |r1 r2 s0 s1 s2 H5 H6| | | | | | | |]; subst; clear H3.
  inversion H5 as [| | |r1 r2 s0 s1' s2 H7 H8| | | | | | | |]; subst; clear H5.
  inversion H8; subst; clear H8.
  apply octetOrRange_word in H7 as (w1 & -> & D1 & Y1).
  inversion H6 as [| | |r1 r2 s0 s1' s2 H9 H10| | | | | | | |]; subst; clear H6.
  inversion H9 as [| | |r1 r2 s0 s1'' s2 H11 H12| | | | | | | |]; subst; clear H9.
  inversion H12; subst; clear H12.
  apply octetOrRange_word in H11 as (w2 & -> & D2 & Y2).
  inversion H10 as [| | |r1 r2 s0 s1'' s2 H13 H14| | | | | | | |]; subst; clear H10.
  inversion H14; subst; clear H14.
  apply octetOrRange_word in H13 as (w3 & -> & D3 & Y3).
  exists w1, w2, w3, w4. split.
  - rewrite !split_append by assumption. rewrite split_nosep by assumption. reflexivity.
  - constructor; [assumption|]. constructor; [assumption|].
    constructor; [assumption|]. constructor; [assumption | constructor].
Qed.

(** X4: every text that [commandString.match(testAnyMatch)] returns is
    taken by one of the four branches, and the array reads of that
    branch are within bounds. *)
Theorem matched_token_shape (commandString tok : string) :
  str_match commandString testAnyMatch = Some tok ->
  match classify tok with
  | StartStop => List.length (split tok "-") = 2%nat
  | CIDR => List.length (split tok "/") = 2%nat
  | SingleIP => True
  | NmapHyphen =>
      List.length (split tok ".") = 4%nat
      /\ forall oct, In oct (split tok ".") -> includes oct "-" = true ->
                     List.length (split oct "-") = 2%nat
  | NoGrammar => False
  end.
Proof.
  intros H. apply str_match_Matches in H.
  set (n := String.length commandString) in *.
  unfold classify.
  destruct (test testStartStop tok) eqn:T1.
  { (* some suffix has six dots, so the token is a start-stop token *)
    apply test_true_inv in T1 as (v & u & s' & E & M).
    destruct (Matches_whole _ testStartStop _ _ eq_refl M) as (-> & _).
    apply startStop_counts in M as (_ & D & _).
    pose proof (count_suffix "." v u) as S. rewrite <- E in S.
    rewrite length_split.
    destruct (anyMatch_cases _ _ H) as [A|[A|A]].
    - apply startStop_counts in A as (A1 & _). lia.
    - apply quadPrefix_counts in A. lia.
    - apply hyphen_counts in A. lia. }
  destruct (test testCIDR tok) eqn:T2.
  { apply test_true_inv in T2 as (v & u & s' & E & M).
    destruct (Matches_whole _ testCIDR _ _ eq_refl M) as (-> & B).
    destruct (B "/"%char) as (B1 & _). change (minCount "/" testCIDR) with 1%nat in B1.
    pose proof (count_suffix "/" v u) as S. rewrite <- E in S.
    rewrite length_split.
    destruct (anyMatch_cases _ _ H) as [A|[A|A]].
    - apply startStop_counts in A. lia.
    - apply quadPrefix_counts in A. lia.
    - apply hyphen_counts in A. lia. }
  destruct (test testSingleIP tok) eqn:T3; [exact I|]. cbn [negb andb].
  rewrite andb_true_r.
  destruct (anyMatch_cases _ _ H) as [A|[A|A]].
  - (* a start-stop token passes the first test *)
    rewrite (test_true testStartStop tok "" tok "") in T1; [discriminate | reflexivity|].
    apply (Matches_bolFree n _ testStartStop _ _ eq_refl A).
  - exfalso.
    inversion A as [| | |r1 r2 s0 s1 s2 H1 H2| | | | | | | |]; subst; clear A.
    inversion H2; subst; clear H2.
    inversion H1 as [| | |r1 r2 s0 s1 s2 H3 H4| | | | | | | |]; subst; clear H1.
    inversion H4 as [| | | | | |r s0|r s0 s0' H5 Hlt| | | |]; subst; clear H4.
    + (* a plain dotted quad passes the third test *)
      rewrite (test_true testSingleIP tok "" tok "") in T3; [discriminate | reflexivity|].
      unfold testSingleIP. eapply MCat; [apply MBol; reflexivity|].
      eapply MCat; [|apply MEol].
      apply (Matches_bolFree n _ dottedQuad _ _ eq_refl H3).
    + (* a dotted quad with a prefix length passes the second test *)
      rewrite (test_true testCIDR tok "" tok "") in T2; [discriminate | reflexivity|].
      unfold testCIDR. eapply MCat; [|apply MEol].
      eapply MCat.
      * apply (Matches_bolFree n _ dottedQuad _ _ eq_refl H3).
      * apply MPlusOne. apply (Matches_bolFree n _ slashPrefix _ _ eq_refl H5).
  - rewrite (test_true testNmapHyphenOrSingle tok "" tok "");
      [|reflexivity | apply (Matches_bolFree n _ testNmapHyphenOrSingle _ _ eq_refl A)].
    destruct (hyphen_fields _ _ A) as (f1 & f2 & f3 & f4 & E & F).
    rewrite E. split; [reflexivity|].
    intros oct Hin Hinc. rewrite length_split.
    rewrite Forall_forall in F. specialize (F oct Hin).
    destruct (count "-" oct) as [|k] eqn:C; [|lia].
    rewrite includes_absent in Hinc by assumption. discriminate.
Qed.

(** ** Carving the last token *)

Lemma indexOf_unfold s pat :
  indexOf s pat
  = if startsWith s pat then Some 0%nat
    else match s with
         | "" => None
         | String _ s' => option_map S (indexOf s' pat)
         end.
Proof. destruct s; reflexivity. Qed.

Lemma replace_at_index s pat : forall k,
  indexOf s pat = Some k ->
  replace s pat "" = take k s ++ drop (k + String.length pat) s.
Proof.
  induction s as [|c s IH]; intros k; rewrite indexOf_unfold, replace_unfold.
  - destruct (startsWith "" pat); [|discriminate]. intros [= <-]. reflexivity.
  - destruct (startsWith (String c s) pat).
    + intros [= <-]. reflexivity.
    + destruct (indexOf s pat) as [j|] eqn:E; [|discriminate].
      intros [= <-]. cbn [take drop Nat.add append]. rewrite (IH j eq_refl). reflexivity.
Qed.

Lemma drop_all s : drop (String.length s) s = "".
Proof. induction s; simpl; auto. Qed.

Lemma replace_last v tok :
  indexOf (v ++ tok) tok = Some (String.length v) -> replace (v ++ tok) tok "" = v.
Proof.
  intros H. rewrite (replace_at_index _ _ _ H), take_append.
  rewrite <- length_append, drop_all. apply append_nil_r.
Qed.

(** ** The report as banner, host blocks and trailer *)

Lemma concatAll_app l1 l2 : concatAll (l1 ++ l2) = concatAll l1 ++ concatAll l2.
Proof.
  induction l1 as [|x l1 IH]; simpl; [reflexivity|].
  rewrite IH, append_assoc. reflexivity.
Qed.

Lemma portStep_fold pingScan m ws : forall result,
  fold_left (portStep pingScan m) ws result
  = result ++ (if pingScan then ""
               else concatAll (map (portLine m)
                                   (filter (fun w => negb (String.eqb w "")) ws))).
Proof.
  induction ws as [|w ws IH]; intros result; cbn [fold_left filter].
  - destruct pingScan; simpl; rewrite append_nil_r; reflexivity.
  - rewrite IH. unfold portStep.
    destruct (negb (String.eqb w "")); [|reflexivity].
    destruct pingScan; cbn [negb map concatAll fold_right]; [reflexivity|].
    unfold portLine. rewrite !append_assoc. reflexivity.
Qed.

Lemma machineStep_spec pingScan targetlist result n m :
  machineStep pingScan targetlist (result, n) m
  = if reported targetlist m then (result ++ hostBlock pingScan m, n + 1)
    else (result, n).
Proof.
  unfold machineStep. destruct (reported targetlist m); [|reflexivity].
  rewrite portStep_fold. f_equal. unfold hostBlock, emittedPorts.
  destruct pingScan; cbn [negb]; rewrite ?append_nil_r, !append_assoc; reflexivity.
Qed.

Lemma machines_fold pingScan targetlist data : forall result n,
  fold_left (machineStep pingScan targetlist) data (result, n)
  = (result ++ concatAll (map (hostBlock pingScan) (filter (reported targetlist) data)),
     n + Z.of_nat (List.length (filter (reported targetlist) data))).
Proof.
  induction data as [|m data IH]; intros result n; cbn [fold_left filter].
  - simpl. rewrite append_nil_r, Z.add_0_r. reflexivity.
  - rewrite machineStep_spec. destruct (reported targetlist m); rewrite IH.
    + cbn [map concatAll fold_right List.length]. rewrite append_assoc.
      f_equal. lia.
    + reflexivity.
Qed.

Theorem createPortScanResults_spec data commandString :
  let targetlist := ListIPAddresses commandString in
  let up := filter (reported targetlist) data in
  createPortScanResults data commandString
  = banner ++ concatAll (map (hostBlock (isPingScan commandString)) up)
    ++ trailer (Z.of_nat (List.length targetlist)) (Z.of_nat (List.length up)).
Proof.
  intros targetlist up. unfold createPortScanResults.
  fold (isPingScan commandString). fold targetlist.
  rewrite machines_fold. fold up. unfold trailer, banner.
  rewrite Z.add_0_l, !append_assoc. reflexivity.
Qed.

Lemma arrayIncludes_In a x : arrayIncludes a x = true <-> In x a.
Proof.
  unfold arrayIncludes. rewrite existsb_exists. split.
  - intros (y & Hy & E). apply String.eqb_eq in E. subst. assumption.
  - intros H. exists x. split; [assumption | apply String.eqb_refl].
Qed.

Lemma nonempty_spec s : negb (String.eqb s "") = true <-> s <> "".
Proof.
  destruct (String.eqb_spec s ""); simpl; split; intros; congruence.
Qed.

Lemma reported_spec targetlist m :
  reported targetlist m = true
  <-> In (IP m) targetlist
      /\ (PortsOpen m <> "" \/ PortsClosed m <> "" \/ PortsFiltered m <> "").
Proof.
  unfold reported. rewrite andb_true_iff, !orb_true_iff, arrayIncludes_In, !nonempty_spec.
  tauto.
Qed.

Lemma portsText_empty ports :
  Forall (fun n => 0 <= n) ports -> (portsText ports = "" <-> ports = []).
Proof.
  intros H. split; [|intros ->; reflexivity].
  destruct ports as [|n ports]; [reflexivity|]. intros E. exfalso.
  inversion H; subst. destruct (toString_spec n) as (_ & _ & N); [assumption|].
  unfold portsText in E. cbn [map String.concat] in E.
  destruct (map toString ports); [contradiction|].
  destruct (toString n); [contradiction | discriminate].
Qed.

Lemma hostBlock_nonempty pingScan m : hostBlock pingScan m <> "".
Proof. unfold hostBlock. cbn [append]. discriminate. Qed.

(** ** Sorting the ports *)

Lemma insert_perm cmp x l : Permutation (insert cmp x l) (x :: l).
Proof.
  induction l as [|y l IH]; cbn [insert]; [reflexivity|].
  destruct (cmp x y <=? 0); [reflexivity|].
  rewrite IH. apply perm_swap.
Qed.

Lemma sort_perm cmp l : Permutation (sort cmp l) l.
Proof.
  induction l as [|x l IH]; cbn [sort fold_right]; [reflexivity|].
  fold (sort cmp l). rewrite insert_perm, IH. reflexivity.
Qed.

Lemma insert_sorted x l :
  StronglySorted numLe l -> StronglySorted numLe (insert byNumber x l).
Proof.
  induction 1 as [|y l Hl IH Hy]; cbn [insert].
  - constructor; constructor.
  - unfold byNumber at 1. destruct (Z.leb_spec (Number x - Number y) 0).
    + constructor; [constructor; assumption|].
      constructor; [unfold numLe; lia|].
      eapply Forall_impl; [|exact Hy]. unfold numLe. intros z Hz. lia.
    + constructor; [assumption|].
      assert (P : Permutation (insert byNumber x l) (x :: l)) by apply insert_perm.
      apply (Permutation_Forall (Permutation_sym P)).
      constructor; [unfold numLe; lia | assumption].
Qed.

Lemma sort_sorted l : StronglySorted numLe (sort byNumber l).
Proof.
  induction l as [|x l IH]; cbn [sort fold_right]; [constructor|].
  apply insert_sorted. exact IH.
Qed.

Lemma StronglySorted_filter {A} (R : A -> A -> Prop) f l :
  StronglySorted R l -> StronglySorted R (filter f l).
Proof.
  induction 1 as [|x l Hl IH Hx]; cbn [filter]; [constructor|].
  destruct (f x); [|assumption].
  constructor; [assumption|].
  apply Forall_forall. intros y Hy. apply filter_In in Hy as [Hy _].
  rewrite Forall_forall in Hx. auto.
Qed.

Lemma StronglySorted_map_Number l :
  StronglySorted numLe l -> StronglySorted Z.le (map Number l).
Proof.
  induction 1 as [|x l Hl IH Hx]; cbn [map]; constructor; [assumption|].
  apply Forall_forall. intros y Hy. apply in_map_iff in Hy as (z & <- & Hz).
  rewrite Forall_forall in Hx. apply Hx. assumption.
Qed.

Lemma filter_perm {A} (f : A -> bool) l l' :
  Permutation l l' -> Permutation (filter f l) (filter f l').
Proof.
  induction 1; cbn [filter].
  - constructor.
  - destruct (f x); [constructor|]; assumption.
  - destruct (f x), (f y); try reflexivity. apply perm_swap.
  - etransitivity; eassumption.
Qed.

(** ** The port categories as lists of numbers *)

Lemma split_join s1 s2 sep :
  split (s1 ++ String sep s2) sep = (split s1 sep ++ split s2 sep)%list.
Proof.
  induction s1 as [|c s1 IH]; cbn [append split].
  - rewrite Ascii.eqb_refl. reflexivity.
  - destruct (Ascii.eqb c sep); rewrite IH; [reflexivity|].
    pose proof (split_not_nil s1 sep) as N.
    destruct (split s1 sep); [contradiction | reflexivity].
Qed.

Lemma split_portsText ports :
  Forall (fun n => 0 <= n) ports ->
  filter notEmpty (split (portsText ports) " ") = map toString ports.
Proof.
  unfold portsText. induction 1 as [|n ports Hn Hp IH]; [reflexivity|].
  cbn [map String.concat].
  assert (E : filter notEmpty (split (toString n) " ") = [toString n]).
  { rewrite split_nosep by (apply toString_count; [assumption | reflexivity]).
    cbn [filter]. unfold notEmpty.
    destruct (toString_spec n Hn) as (_ & _ & N).
    destruct (String.eqb_spec (toString n) ""); [contradiction | reflexivity]. }
  destruct (map toString ports) as [|t ts] eqn:M.
  - exact E.
  - cbn [append]. rewrite split_join, filter_app, E, IH. reflexivity.
Qed.

Lemma emittedPorts_perm m fs cs os :
  Forall (fun n => 0 <= n) fs -> Forall (fun n => 0 <= n) cs ->
  Forall (fun n => 0 <= n) os ->
  PortsFiltered m = portsText fs -> PortsClosed m = portsText cs ->
  PortsOpen m = portsText os ->
  Permutation (emittedPorts m) (map toString (fs ++ cs ++ os)).
Proof.
  intros Hf Hc Ho Ef Ec Eo. unfold emittedPorts, sortedPorts.
  rewrite Ef, Ec, Eo. cbn [append].
  fold notEmpty.
  rewrite (filter_perm notEmpty _ _ (sort_perm byNumber _)).
  rewrite !split_join, !filter_app, !split_portsText by assumption.
  rewrite !map_app. reflexivity.
Qed.

Lemma emittedPorts_numbers m fs cs os :
  Forall (fun n => 0 <= n) fs -> Forall (fun n => 0 <= n) cs ->
  Forall (fun n => 0 <= n) os ->
  PortsFiltered m = portsText fs -> PortsClosed m = portsText cs ->
  PortsOpen m = portsText os ->
  let L := map Number (emittedPorts m) in
  emittedPorts m = map toString L
  /\ Permutation L (fs ++ cs ++ os)
  /\ StronglySorted Z.le L.
Proof.
  intros Hf Hc Ho Ef Ec Eo L.
  pose proof (emittedPorts_perm m fs cs os Hf Hc Ho Ef Ec Eo) as P.
  assert (Hall : Forall (fun n => 0 <= n) (fs ++ cs ++ os)).
  { apply Forall_app; split; [|apply Forall_app; split]; assumption. }
  split; [|split].
  - subst L. rewrite map_map. rewrite <- (map_id (emittedPorts m)) at 1.
    apply map_ext_in. intros x Hx.
    apply (Permutation_in _ P) in Hx. apply in_map_iff in Hx as (n & <- & Hn).
    rewrite Forall_forall in Hall. rewrite Number_toString by auto. reflexivity.
  - subst L. rewrite (Permutation_map Number P), map_map.
    rewrite <- (map_id (fs ++ cs ++ os)) at 2.
    apply Permutation_refl'. apply map_ext_in. intros n Hn.
    rewrite Forall_forall in Hall. apply Number_toString. auto.
  - subst L. apply StronglySorted_map_Number. unfold emittedPorts.
    apply StronglySorted_filter. unfold sortedPorts. apply sort_sorted.
Qed.

(** ** Substring tests on a port category *)

Lemma includes_iff s w : includes s w = true <-> exists x y, s = x ++ w ++ y.
Proof.
  unfold includes. split.
  - induction s as [|c s IH]; rewrite indexOf_unfold.
    + destruct (startsWith "" w) eqn:E; [|discriminate]. intros _.
      apply startsWith_inv in E as (t & E). exists "", t. exact E.
    + destruct (startsWith (String c s) w) eqn:E.
      * intros _. apply startsWith_inv in E as (t & E). exists "", t. exact E.
      * destruct (indexOf s w) eqn:I; [|discriminate]. intros _.
        destruct (IH eq_refl) as (x & y & ->). exists (String c x), y. reflexivity.
  - intros (x & y & ->). induction x as [|c x IH]; rewrite indexOf_unfold.
    + cbn [append]. rewrite startsWith_append. reflexivity.
    + destruct (startsWith (String c x ++ w ++ y) w); [reflexivity|].
      cbn [append]. destruct (indexOf (x ++ w ++ y) w); [reflexivity | discriminate].
Qed.

Lemma append_eq_append x y u v :
  x ++ y = u ++ v ->
  (exists l, x = u ++ l /\ v = l ++ y) \/ (exists l, u = x ++ l /\ y = l ++ v).
Proof.
  revert u. induction x as [|c x IH]; intros u E.
  - right. exists u. auto.
  - destruct u as [|c' u].
    + left. exists (String c x). auto.
    + cbn [append] in E. injection E as -> E.
      destruct (IH u E) as [(l & -> & ->)|(l & -> & ->)]; [left | right]; exists l; auto.
Qed.

(** A word without the separator occurs in two joined texts only if it
    occurs in one of them. *)
Lemma includes_join s1 s2 sep w :
  count sep w = 0%nat -> w <> "" ->
  includes (s1 ++ String sep s2) w = includes s1 w || includes s2 w.
Proof.
  intros Hw Hne. apply eq_true_iff_eq. rewrite orb_true_iff, !includes_iff. split.
  - intros (x & y & E). symmetry in E.
    apply append_eq_append in E as [(l & -> & E)|(l & -> & E)].
    + (* the word starts after the separator or on it *)
      destruct l as [|c l].
      * cbn [append] in E. destruct w as [|c w]; [congruence|].
        cbn [append] in E. injection E as -> _.
        simpl in Hw. rewrite Ascii.eqb_refl in Hw. discriminate.
      * cbn [append] in E. injection E as _ ->. right. exists l, y. reflexivity.
    + (* the word starts before the separator *)
      apply append_eq_append in E as [(l' & -> & E)|(l' & -> & E)].
      * destruct l' as [|c l'].
        -- left. exists x, "". rewrite !append_nil_r. reflexivity.
        -- cbn [append] in E. injection E as <- _.
           rewrite count_append in Hw. simpl in Hw.
           rewrite Ascii.eqb_refl in Hw. lia.
      * left. exists x, l'. reflexivity.
  - intros [(x & y & ->)|(x & y & ->)].
    + exists x, (y ++ String sep s2). rewrite !append_assoc. reflexivity.
    + exists (s1 ++ String sep x), y. rewrite !append_assoc. reflexivity.
Qed.

Lemma includes_empty_text w : w <> "" -> includes "" w = false.
Proof. destruct w; [congruence | reflexivity]. Qed.

Lemma includes_portsText ports w :
  count " " w = 0%nat -> w <> "" ->
  includes (portsText ports) w = existsb (fun p => includes (toString p) w) ports.
Proof.
  intros Hw Hne. unfold portsText. induction ports as [|p ports IH].
  - apply includes_empty_text. assumption.
  - cbn [map String.concat existsb]. destruct (map toString ports) as [|t ts] eqn:M.
    + destruct ports; [|discriminate]. simpl. rewrite orb_false_r. reflexivity.
    + cbn [append]. rewrite includes_join by assumption. rewrite IH. reflexivity.
Qed.

Lemma includes_self w : includes w w = true.
Proof. apply includes_iff. exists "", "". rewrite append_nil_r. reflexivity. Qed.

Lemma existsb_clash_free ports n :
  (forall p, In p ports -> includes (toString p) (toString n) = true -> p = n) ->
  existsb (fun p => includes (toString p) (toString n)) ports = existsb (Z.eqb n) ports.
Proof.
  intros H. apply eq_true_iff_eq. rewrite !existsb_exists. split.
  - intros (p & Hp & I). exists p. split; [assumption|].
    apply Z.eqb_eq. symmetry. apply H; assumption.
  - intros (p & Hp & E). apply Z.eqb_eq in E. subst p.
    exists n. split; [assumption | apply includes_self].
Qed.

(** * The claims about [ListIPAddresses] *)

Lemma tokenBoundary_space q : tokenBoundary (q ++ " ").
Proof. right. exists q, " "%char. split; reflexivity. Qed.

Lemma tokenBoundary_empty : tokenBoundary "".
Proof. left; reflexivity. Qed.

(** [interval a b] holds exactly the integers from [a] to [b], in
    strictly ascending order. *)
Lemma In_interval a b x : In x (interval a b) <-> a <= x <= b.
Proof.
  unfold interval. rewrite in_map_iff. split.
  - intros (k & <- & Hk). apply in_seq in Hk. lia.
  - intros H. exists (Z.to_nat (x - a)). split; [lia|]. apply in_seq. lia.
Qed.

Lemma interval_length a b : List.length (interval a b) = Z.to_nat (b - a + 1).
Proof. unfold interval. rewrite length_map, length_seq. reflexivity. Qed.

Lemma interval_ascending a b : StronglySorted Z.lt (interval a b).
Proof.
  unfold interval. generalize (Z.to_nat (b - a + 1)) as n. intros n.
  generalize 0%nat as i. induction n as [|n IH]; intros i; cbn [seq map].
  - constructor.
  - constructor; [apply IH|]. apply Forall_forall. intros y Hy.
    apply in_map_iff in Hy as (k & <- & Hk). apply in_seq in Hk. lia.
Qed.

(** C1, as stated, fails: the prefix length 3 is outside 4-32, yet the
    token [10.0.0.0/3] is matched at the tail of the command and taken
    by the CIDR branch. *)
Lemma C1_prefix_3_accepted :
  str_match "nmap 10.0.0.0/3" testAnyMatch = Some "10.0.0.0/3"
  /\ classify "10.0.0.0/3" = CIDR
  /\ ~ (4 <= 3 <= 32).
Proof. split; [|split]; [vm_compute; reflexivity .. | lia]. Qed.

(** C1, amended: a trailing token [A.B.C.D/P] is accepted as a CIDR
    block exactly when [1 <= P <= 32]; for [P = 0] and [P > 32] no
    grammar matches at the tail, so the loop stops at once and no
    address is produced. *)
Theorem C1_cidr_prefix_range (a b c d p : Z) (q : string) :
  isOctet a -> isOctet b -> isOctet c -> isOctet d -> 0 <= p -> tokenBoundary q ->
  let tok := cidrToken a b c d p in
  ((str_match (q ++ tok) testAnyMatch = Some tok /\ classify tok = CIDR) <-> 1 <= p <= 32)
  /\ (~ 1 <= p <= 32 ->
      str_match (q ++ tok) testAnyMatch = None /\ ListIPAddresses (q ++ tok) = []).
Proof.
  intros Ha Hb Hc Hd Hp Hq tok. split.
  - split.
    + intros [M _]. unfold tok in M.
      destruct (Z_le_dec 1 p) as [L1|N]; [destruct (Z_le_dec p 32) as [L2|N]|];
        try lia;
        rewrite (str_match_rejected a b c d p Ha Hb Hc Hd Hp ltac:(lia) q Hq) in M;
        discriminate.
    + intros R. split.
      * apply str_match_token; [assumption | apply cidr_any; assumption].
      * apply classify_cidr; assumption.
  - intros N.
    pose proof (str_match_rejected a b c d p Ha Hb Hc Hd Hp N q Hq) as M.
    split; [exact M | apply ListIPAddresses_done; exact M].
Qed.

Lemma C1_cidr_prefix_range_witness :
  let tok := cidrToken 10 0 0 0 24 in
  ((str_match ("nmap " ++ tok) testAnyMatch = Some tok /\ classify tok = CIDR)
   <-> 1 <= 24 <= 32)
  /\ (~ 1 <= 24 <= 32 ->
      str_match ("nmap " ++ tok) testAnyMatch = None
      /\ ListIPAddresses ("nmap " ++ tok) = []).
Proof.
  apply (C1_cidr_prefix_range 10 0 0 0 24 "nmap ");
    try (unfold isOctet; lia).
  exact (tokenBoundary_space "nmap").
Defined.

(** C4: the loop removes the first occurrence of the matched text, not
    the trailing one.  On [nmap 11.1.1.1 1.1.1.1] the first iteration
    matches the trailing [1.1.1.1] and carves it out of [11.1.1.1]; the
    result is twice [1.1.1.1], where expanding the trailing token and
    then parsing the text before it gives [1.1.1.1] and [11.1.1.1]. *)
Theorem C4_first_occurrence_carved :
  let cmd := "nmap 11.1.1.1 1.1.1.1" in
  str_match cmd testAnyMatch = Some "1.1.1.1"
  /\ carve cmd "1.1.1.1" = "nmap 1 1.1.1.1"
  /\ ListIPAddresses cmd = ["1.1.1.1"; "1.1.1.1"]
  /\ (expand "1.1.1.1" ++ ListIPAddresses "nmap 11.1.1.1")%list = ["1.1.1.1"; "11.1.1.1"].
Proof. repeat split; vm_compute; reflexivity. Qed.

(** C5: a start-stop token whose sides are valid dotted quads expands
    to nothing when the end is below the start, and otherwise to every
    value from start to end, ascending, each as a dotted quad; at the
    tail of a command it is the text matched and expanded. *)
Theorem C5_start_stop (a b c d e f g h : Z) (q : string) :
  isOctet a -> isOctet b -> isOctet c -> isOctet d ->
  isOctet e -> isOctet f -> isOctet g -> isOctet h -> tokenBoundary q ->
  let tok := startStopToken a b c d e f g h in
  let first := quadValue a b c d in
  let last := quadValue e f g h in
  (0 <= first < 2 ^ 32 /\ 0 <= last < 2 ^ 32)
  /\ (quadOfValue first = quad a b c d /\ quadOfValue last = quad e f g h)
  /\ str_match (q ++ tok) testAnyMatch = Some tok
  /\ classify tok = StartStop
  /\ (last < first -> expand tok = [])
  /\ (first <= last -> expand tok = map quadOfValue (interval first last))
  /\ ListIPAddresses (q ++ tok)
     = (expand tok ++ ListIPAddresses (carve (q ++ tok) tok))%list
  /\ ListIPAddresses "10.0.0.2-10.0.0.2" = ["10.0.0.2"]
  /\ ListIPAddresses "10.0.0.5-10.0.0.3" = [].
Proof.
  intros Ha Hb Hc Hd He Hf Hg Hh Hq tok first last.
  pose proof (expand_startStop a b c d e f g h Ha Hb Hc Hd He Hf Hg Hh) as E.
  fold tok first last in E.
  split; [split; apply quadValue_range; assumption|].
  split; [split; apply quadOfValue_quadValue; assumption|].
  assert (M : str_match (q ++ tok) testAnyMatch = Some tok)
    by (apply str_match_token; [assumption | apply startStop_any; assumption]).
  split; [exact M|].
  split; [apply classify_startStop; assumption|].
  split; [|split; [|split; [|split]]].
  - intros L. rewrite E. unfold interval.
    replace (Z.to_nat (last - first + 1)) with 0%nat by lia. reflexivity.
  - intros _. exact E.
  - apply ListIPAddresses_step. exact M.
  - vm_compute; reflexivity.
  - vm_compute; reflexivity.
Qed.

Lemma C5_start_stop_witness :
  let tok := startStopToken 10 0 0 254 10 0 1 1 in
  let first := quadValue 10 0 0 254 in
  let last := quadValue 10 0 1 1 in
  (0 <= first < 2 ^ 32 /\ 0 <= last < 2 ^ 32)
  /\ (quadOfValue first = quad 10 0 0 254 /\ quadOfValue last = quad 10 0 1 1)
  /\ str_match ("nmap -sn " ++ tok) testAnyMatch = Some tok
  /\ classify tok = StartStop
  /\ (last < first -> expand tok = [])
  /\ (first <= last -> expand tok = map quadOfValue (interval first last))
  /\ ListIPAddresses ("nmap -sn " ++ tok)
     = (expand tok ++ ListIPAddresses (carve ("nmap -sn " ++ tok) tok))%list
  /\ ListIPAddresses "10.0.0.2-10.0.0.2" = ["10.0.0.2"]
  /\ ListIPAddresses "10.0.0.5-10.0.0.3" = [].
Proof.
  apply (C5_start_stop 10 0 0 254 10 0 1 1 "nmap -sn ");
    try (unfold isOctet; lia).
  exact (tokenBoundary_space "nmap -sn").
Defined.

(** C6: an accepted CIDR token expands to the [2 ^ (32 - P)] values
    that start at the base address rounded down to a multiple of
    [2 ^ (32 - P)], ascending, each as a dotted quad; the high bit of
    the base address makes no difference. *)
Theorem C6_cidr_block (a b c d p : Z) (q : string) :
  isOctet a -> isOctet b -> isOctet c -> isOctet d -> 1 <= p <= 32 -> tokenBoundary q ->
  let tok := cidrToken a b c d p in
  let size := 2 ^ (32 - p) in
  let net := quadValue a b c d / size * size in
  str_match (q ++ tok) testAnyMatch = Some tok
  /\ classify tok = CIDR
  /\ (net <= quadValue a b c d < net + size /\ net mod size = 0
      /\ 0 <= net /\ net + size <= 2 ^ 32)
  /\ expand tok = map quadOfValue (interval net (net + size - 1))
  /\ List.length (expand tok) = Z.to_nat size
  /\ ListIPAddresses (q ++ tok)
     = (expand tok ++ ListIPAddresses (carve (q ++ tok) tok))%list
  /\ ListIPAddresses "10.0.0.0/30" = ["10.0.0.0"; "10.0.0.1"; "10.0.0.2"; "10.0.0.3"]
  /\ ListIPAddresses "200.0.0.9/30" = ["200.0.0.8"; "200.0.0.9"; "200.0.0.10"; "200.0.0.11"].
Proof.
  intros Ha Hb Hc Hd Hp Hq tok size net.
  pose proof (expand_cidr a b c d p Ha Hb Hc Hd Hp) as E. cbv zeta in E.
  fold tok size in E. fold net in E.
  pose proof (quadValue_range a b c d Ha Hb Hc Hd) as Hv.
  destruct (band_mask_spec (quadValue a b c d) p Hv Hp) as (_ & N0 & N1).
  fold size in N0, N1. fold net in N0, N1.
  assert (Hs : 0 < size) by (apply Z.pow_pos_nonneg; lia).
  assert (M : str_match (q ++ tok) testAnyMatch = Some tok)
    by (apply str_match_token; [assumption | apply cidr_any; assumption]).
  split; [exact M|].
  split; [apply classify_cidr; assumption|].
  split; [|split; [exact E|split; [|split; [|split]]]].
  - repeat split; try assumption.
    + subst net. pose proof (Z.mul_div_le (quadValue a b c d) size Hs). lia.
    + subst net. pose proof (Z.mod_pos_bound (quadValue a b c d) size Hs).
      pose proof (Z.div_mod (quadValue a b c d) size ltac:(lia)). lia.
    + subst net. apply Z.mod_mul. lia.
  - rewrite E, length_map. unfold interval. rewrite length_map, length_seq.
    f_equal. lia.
  - apply ListIPAddresses_step. exact M.
  - vm_compute; reflexivity.
  - vm_compute; reflexivity.
Qed.

Lemma C6_cidr_block_witness :
  let tok := cidrToken 192 168 1 77 26 in
  let size := 2 ^ (32 - 26) in
  let net := quadValue 192 168 1 77 / size * size in
  str_match ("nmap " ++ tok) testAnyMatch = Some tok
  /\ classify tok = CIDR
  /\ (net <= quadValue 192 168 1 77 < net + size /\ net mod size = 0
      /\ 0 <= net /\ net + size <= 2 ^ 32)
  /\ expand tok = map quadOfValue (interval net (net + size - 1))
  /\ List.length (expand tok) = Z.to_nat size
  /\ ListIPAddresses ("nmap " ++ tok)
     = (expand tok ++ ListIPAddresses (carve ("nmap " ++ tok) tok))%list
  /\ ListIPAddresses "10.0.0.0/30" = ["10.0.0.0"; "10.0.0.1"; "10.0.0.2"; "10.0.0.3"]
  /\ ListIPAddresses "200.0.0.9/30" = ["200.0.0.8"; "200.0.0.9"; "200.0.0.10"; "200.0.0.11"].
Proof.
  apply (C6_cidr_block 192 168 1 77 26 "nmap ");
    try (unfold isOctet; lia).
  exact (tokenBoundary_space "nmap").
Defined.

(** X1: the per-octet notation on fields whose ranges are in order: the
    token is matched at the tail of the command, taken by the last
    branch, and expands to the octet-major product of the fields'
    ascending lists. *)
Theorem per_octet_ascending (f1 f2 f3 f4 : field) (q : string) :
  fieldOk f1 -> fieldOk f2 -> fieldOk f3 -> fieldOk f4 ->
  isSpan f1 || isSpan f2 || isSpan f3 || isSpan f4 = true ->
  fieldAscending f1 -> fieldAscending f2 -> fieldAscending f3 -> fieldAscending f4 ->
  tokenBoundary q ->
  let tok := hyphenToken f1 f2 f3 f4 in
  str_match (q ++ tok) testAnyMatch = Some tok
  /\ classify tok = NmapHyphen
  /\ expand tok
     = octetMajor (fieldValues f1) (fieldValues f2) (fieldValues f3) (fieldValues f4)
  /\ ListIPAddresses (q ++ tok)
     = (expand tok ++ ListIPAddresses (carve (q ++ tok) tok))%list.
Proof.
  intros H1 H2 H3 H4 Hs A1 A2 A3 A4 Hq tok.
  assert (M : str_match (q ++ tok) testAnyMatch = Some tok)
    by (apply str_match_token; [assumption | apply hyphen_any; assumption]).
  split; [exact M|].
  split; [apply classify_hyphen; assumption|].
  split; [apply expand_hyphen; assumption|].
  apply ListIPAddresses_step. exact M.
Qed.

Example per_octet_example :
  hyphenToken (Span 1 2) (Bare 3) (Bare 4) (Span 5 6) = "1-2.3.4.5-6"
  /\ ListIPAddresses "nmap 1-2.3.4.5-6" = ["1.3.4.5"; "1.3.4.6"; "2.3.4.5"; "2.3.4.6"]
  /\ octetMajor (fieldValues (Span 1 2)) (fieldValues (Bare 3))
                (fieldValues (Bare 4)) (fieldValues (Span 5 6))
     = ["1.3.4.5"; "1.3.4.6"; "2.3.4.5"; "2.3.4.6"].
Proof. repeat split; vm_compute; reflexivity. Qed.

(** C7: a field whose range is written backwards is not expanded to
    its ascending list.  The token [5-2.1.1.1] is a per-octet token;
    the product of the ascending lists of its fields is empty (no
    integer lies between 5 and 2), but the code runs [_.range] from 5
    down to 3 exclusive and emits two addresses. *)
Theorem C7_backward_field :
  hyphenToken (Span 5 2) (Bare 1) (Bare 1) (Bare 1) = "5-2.1.1.1"
  /\ classify "5-2.1.1.1" = NmapHyphen
  /\ octetValues "5-2" = [5; 4]
  /\ ListIPAddresses "nmap 5-2.1.1.1" = ["5.1.1.1"; "4.1.1.1"]
  /\ octetMajor (fieldValues (Span 5 2)) (fieldValues (Bare 1))
                (fieldValues (Bare 1)) (fieldValues (Bare 1)) = [].
Proof. repeat split; vm_compute; reflexivity. Qed.

(** C10: [ListIPAddresses] terminates.  Whatever the loop matches is a
    nonempty suffix of the text, one occurrence of it is removed (the
    text loses exactly its length, also when the same text occurs
    earlier), so the carved text is shorter, and the loop returns
    within one more iteration than the text has characters. *)
Theorem C10_ListIPAddresses_terminates (commandString : string) :
  (forall tok, str_match commandString testAnyMatch = Some tok ->
     tok <> ""
     /\ (exists v, commandString = v ++ tok)
     /\ (String.length (replace commandString tok "") + String.length tok
         = String.length commandString)%nat
     /\ (String.length (carve commandString tok) < String.length commandString)%nat)
  /\ (forall fuel, (String.length commandString < fuel)%nat ->
        ListIPAddresses_loop fuel [] commandString = Some (ListIPAddresses commandString)).
Proof.
  split.
  - intros tok H. pose proof (carve_shorter _ _ H) as C.
    apply str_match_suffix in H as ((v & E) & N).
    split; [assumption|]. split; [eauto|]. split; [|assumption].
    subst commandString. pose proof (replace_length v tok "") as R.
    rewrite append_nil_r in R. exact R.
  - intros fuel Hf. apply ListIPAddresses_loop_spec. assumption.
Qed.

Lemma C10_ListIPAddresses_terminates_witness :
  let cmd := "nmap 11.1.1.1 1.1.1.1" in
  ("1.1.1.1" <> ""
   /\ (exists v, cmd = v ++ "1.1.1.1")
   /\ (String.length (replace cmd "1.1.1.1" "") + String.length "1.1.1.1"
       = String.length cmd)%nat
   /\ (String.length (carve cmd "1.1.1.1") < String.length cmd)%nat)
  /\ ListIPAddresses_loop 30 [] cmd = Some (ListIPAddresses cmd).
Proof.
  intros cmd. destruct (C10_ListIPAddresses_terminates cmd) as [S T]. split.
  - apply S. vm_compute. reflexivity.
  - apply T. simpl. lia.
Defined.

(** X3: when the matched text occurs nowhere earlier in the command, one
    iteration expands it and goes on with the trimmed text in front of
    it. *)
Theorem step_without_earlier_occurrence (v tok : string) :
  str_match (v ++ tok) testAnyMatch = Some tok ->
  indexOf (v ++ tok) tok = Some (String.length v) ->
  carve (v ++ tok) tok = trim v
  /\ ListIPAddresses (v ++ tok) = (expand tok ++ ListIPAddresses (trim v))%list.
Proof.
  intros M I.
  assert (C : carve (v ++ tok) tok = trim v) by (unfold carve; rewrite replace_last; auto).
  split; [exact C|]. rewrite (ListIPAddresses_step _ _ M), C. reflexivity.
Qed.

Lemma step_without_earlier_occurrence_witness :
  carve ("nmap 10.0.0.9 " ++ "10.0.0.1") "10.0.0.1" = trim "nmap 10.0.0.9 "
  /\ ListIPAddresses ("nmap 10.0.0.9 " ++ "10.0.0.1")
     = (expand "10.0.0.1" ++ ListIPAddresses (trim "nmap 10.0.0.9 "))%list.
Proof.
  apply (step_without_earlier_occurrence "nmap 10.0.0.9 " "10.0.0.1");
    vm_compute; reflexivity.
Defined.

(** X2: a single dotted quad at the tail of a command is matched, taken by
    the third branch and yields itself. *)
Theorem single_address (a b c d : Z) (q : string) :
  isOctet a -> isOctet b -> isOctet c -> isOctet d -> tokenBoundary q ->
  let tok := quad a b c d in
  str_match (q ++ tok) testAnyMatch = Some tok
  /\ classify tok = SingleIP
  /\ expand tok = [tok]
  /\ ListIPAddresses "192.168.1.5" = ["192.168.1.5"].
Proof.
  intros Ha Hb Hc Hd Hq tok. split; [|split; [|split]].
  - apply str_match_token; [assumption | apply single_any; assumption].
  - apply classify_single; assumption.
  - apply expand_single; assumption.
  - vm_compute; reflexivity.
Qed.

Lemma single_address_witness :
  let tok := quad 192 168 1 5 in
  str_match ("nmap -sn " ++ tok) testAnyMatch = Some tok
  /\ classify tok = SingleIP
  /\ expand tok = [tok]
  /\ ListIPAddresses "192.168.1.5" = ["192.168.1.5"].
Proof.
  apply (single_address 192 168 1 5 "nmap -sn "); try (unfold isOctet; lia).
  exact (tokenBoundary_space "nmap -sn").
Defined.

Lemma per_octet_ascending_witness :
  let tok := hyphenToken (Span 172 173) (Span 16 17) (Bare 0) (Span 1 5) in
  str_match ("nmap -oN " ++ tok) testAnyMatch = Some tok
  /\ classify tok = NmapHyphen
  /\ expand tok
     = octetMajor (fieldValues (Span 172 173)) (fieldValues (Span 16 17))
                  (fieldValues (Bare 0)) (fieldValues (Span 1 5))
  /\ ListIPAddresses ("nmap -oN " ++ tok)
     = (expand tok ++ ListIPAddresses (carve ("nmap -oN " ++ tok) tok))%list.
Proof.
  apply (per_octet_ascending (Span 172 173) (Span 16 17) (Bare 0) (Span 1 5) "nmap -oN ");
    try (simpl; unfold isOctet; lia); try reflexivity.
  exact (tokenBoundary_space "nmap -oN").
Defined.

Lemma matched_token_shape_witness :
  List.length (split "10.0.0.1-10.0.0.9" "-") = 2%nat.
Proof.
  apply (matched_token_shape "nmap 10.0.0.1-10.0.0.9" "10.0.0.1-10.0.0.9").
  vm_compute. reflexivity.
Defined.

(** * The claims about [createPortScanResults] *)

(** C2: the state label is looked up by substring, not by membership.
    For a machine whose filtered ports are [80] and whose open ports
    are [8], port 8 is a member of the open category only, yet its
    line says [filtered], because the text [8] occurs in the text
    [80]. *)
Theorem C2_label_by_substring :
  let m := {| IP := "10.0.0.1"; Latency := "0.01"; PortsClosed := "";
              PortsFiltered := portsText [80]; PortsOpen := portsText [8] |} in
  stateLabel m (toString 8) = "filtered "
  /\ ~ In 8 [80] /\ In 8 [8]
  /\ createPortScanResults [m] "nmap 10.0.0.1"
     = banner
       ++ "Nmap scan report for 10.0.0.1" ++ CRLF
       ++ "Host it up (0.01s latency)." ++ CRLF
       ++ "PORT         STATE    SERVICE" ++ CRLF
       ++ "8/tcp  filtered " ++ CRLF
       ++ "80/tcp  filtered " ++ CRLF
       ++ CRLF
       ++ trailer 1 1.
Proof.
  split; [vm_compute; reflexivity|]. split; [simpl; intuition lia|].
  split; [simpl; auto|]. vm_compute; reflexivity.
Qed.

(** X5: when the decimal text of a port occurs in the text of no other
    listed port, its label is found by membership, with the priority
    filtered, then open, then closed. *)
Theorem label_without_clash (m : machine) (fs cs os : list Z) (n : Z) :
  PortsFiltered m = portsText fs -> PortsClosed m = portsText cs ->
  PortsOpen m = portsText os -> 0 <= n ->
  (forall p, In p (fs ++ cs ++ os) ->
             includes (toString p) (toString n) = true -> p = n) ->
  stateLabel m (toString n)
  = if existsb (Z.eqb n) fs then "filtered "
    else if existsb (Z.eqb n) os then "open "
    else if existsb (Z.eqb n) cs then "closed "
    else "".
Proof.
  intros Ef Ec Eo Hn H. unfold stateLabel. rewrite Ef, Ec, Eo.
  destruct (toString_spec n Hn) as (_ & _ & Ne).
  assert (Hs : count " " (toString n) = 0%nat) by (apply toString_count; auto).
  rewrite !includes_portsText by assumption.
  rewrite (existsb_clash_free fs), (existsb_clash_free os), (existsb_clash_free cs).
  - reflexivity.
  - intros p Hp. apply H. apply in_or_app. right. apply in_or_app. left. assumption.
  - intros p Hp. apply H. apply in_or_app. right. apply in_or_app. right. assumption.
  - intros p Hp. apply H. apply in_or_app. left. assumption.
Qed.

Lemma label_without_clash_witness :
  let m := {| IP := "8.8.8.8"; Latency := "0.666"; PortsClosed := portsText [200];
              PortsFiltered := portsText [300; 443]; PortsOpen := portsText [100; 443] |} in
  stateLabel m (toString 443)
  = if existsb (Z.eqb 443) [300; 443] then "filtered "
    else if existsb (Z.eqb 443) [100; 443] then "open "
    else if existsb (Z.eqb 443) [200] then "closed "
    else "".
Proof.
  intros m. apply (label_without_clash m [300; 443] [200] [100; 443] 443);
    try reflexivity; try lia.
  intros p Hp Hi. simpl in Hp.
  destruct Hp as [<-|[<-|[<-|[<-|[<-|[]]]]]]; try reflexivity; vm_compute in Hi; discriminate.
Defined.

Lemma safeNaturals_nonneg ports :
  Forall isSafeNatural ports -> Forall (fun n => 0 <= n) ports.
Proof. apply Forall_impl. unfold isSafeNatural. intros n Hn. lia. Qed.

(** C3, as stated, fails: a port listed in two categories gets two
    lines, so the lines are neither one per distinct port nor strictly
    ascending. *)
Lemma C3_port_listed_twice :
  let m := {| IP := "10.0.0.1"; Latency := "0.01"; PortsClosed := "";
              PortsFiltered := portsText [80]; PortsOpen := portsText [80] |} in
  emittedPorts m = ["80"; "80"]
  /\ createPortScanResults [m] "nmap 10.0.0.1"
     = banner
       ++ "Nmap scan report for 10.0.0.1" ++ CRLF
       ++ "Host it up (0.01s latency)." ++ CRLF
       ++ "PORT         STATE    SERVICE" ++ CRLF
       ++ "80/tcp  filtered " ++ CRLF
       ++ "80/tcp  filtered " ++ CRLF
       ++ CRLF
       ++ trailer 1 1.
Proof. split; vm_compute; reflexivity. Qed.

(** C3, amended: for a machine whose categories list the ports [fs],
    [cs] and [os], each a natural number below [2 ^ 53] (the numbers
    that [Number] converts without rounding; a port number is at most
    65535), the block written in a port scan has one line per listed
    entry (an entry listed twice gets two lines), and the lines are in
    non-decreasing order of the port numbers, whatever the order inside
    the categories. *)
Theorem C3_port_lines_sorted (m : machine) (fs cs os : list Z) :
  Forall isSafeNatural fs -> Forall isSafeNatural cs ->
  Forall isSafeNatural os ->
  PortsFiltered m = portsText fs -> PortsClosed m = portsText cs ->
  PortsOpen m = portsText os ->
  exists L : list Z,
    Permutation L (fs ++ cs ++ os)
    /\ StronglySorted Z.le L
    /\ hostBlock false m
       = "Nmap scan report for " ++ IP m ++ CRLF
         ++ "Host it up (" ++ Latency m ++ "s latency)." ++ CRLF
         ++ "PORT         STATE    SERVICE" ++ CRLF
         ++ concatAll (map (fun n => toString n ++ "/tcp  "
                                     ++ stateLabel m (toString n) ++ CRLF) L)
         ++ CRLF
    /\ forall data commandString,
         isPingScan commandString = false ->
         In m data -> reported (ListIPAddresses commandString) m = true ->
         exists before after,
           createPortScanResults data commandString
           = before ++ hostBlock false m ++ after.
Proof.
  intros Hf Hc Ho Ef Ec Eo.
  apply safeNaturals_nonneg in Hf, Hc, Ho.
  destruct (emittedPorts_numbers m fs cs os Hf Hc Ho Ef Ec Eo) as (E & P & S).
  exists (map Number (emittedPorts m)). split; [exact P|]. split; [exact S|].
  split.
  - unfold hostBlock. rewrite E at 1. rewrite map_map. reflexivity.
  - intros data commandString Hping Hin Hrep.
    rewrite createPortScanResults_spec, Hping. cbv zeta.
    assert (Hup : In m (filter (reported (ListIPAddresses commandString)) data))
      by (apply filter_In; auto).
    apply in_split in Hup as (l1 & l2 & ->).
    rewrite map_app, concatAll_app. cbn [map concatAll fold_right].
    exists (banner ++ concatAll (map (hostBlock false) l1)).
    eexists. rewrite !append_assoc. reflexivity.
Qed.

Lemma C3_port_lines_sorted_witness :
  let m := {| IP := "172.16.0.1"; Latency := "0.062"; PortsClosed := portsText [22];
              PortsFiltered := portsText [443; 80]; PortsOpen := portsText [80; 8080] |} in
  exists L : list Z,
    Permutation L ([443; 80] ++ [22] ++ [80; 8080])
    /\ StronglySorted Z.le L
    /\ hostBlock false m
       = "Nmap scan report for " ++ IP m ++ CRLF
         ++ "Host it up (" ++ Latency m ++ "s latency)." ++ CRLF
         ++ "PORT         STATE    SERVICE" ++ CRLF
         ++ concatAll (map (fun n => toString n ++ "/tcp  "
                                     ++ stateLabel m (toString n) ++ CRLF) L)
         ++ CRLF
    /\ forall data commandString,
         isPingScan commandString = false ->
         In m data -> reported (ListIPAddresses commandString) m = true ->
         exists before after,
           createPortScanResults data commandString
           = before ++ hostBlock false m ++ after.
Proof.
  intros m. apply (C3_port_lines_sorted m [443; 80] [22] [80; 8080]);
    try reflexivity; repeat (constructor; [unfold isSafeNatural; lia|]); constructor.
Defined.

Example ports_out_of_order :
  let m := {| IP := "172.16.0.1"; Latency := "0.062"; PortsClosed := "";
              PortsFiltered := "443 80"; PortsOpen := "" |} in
  emittedPorts m = ["80"; "443"]
  /\ String.leb "443" "80" = true.
Proof. split; vm_compute; reflexivity. Qed.

(** C8: a machine gets a block exactly when its address is in the
    target list and one of its three port categories is not empty.
    The report is the banner, the blocks of these machines in dataset
    order, and the trailer whose host count is their number; a machine
    without ports, targeted or not, adds no text and is not counted. *)
Theorem C8_reported_hosts (data : list machine) (commandString : string) :
  let targetlist := ListIPAddresses commandString in
  let pingScan := isPingScan commandString in
  let up := filter (reported targetlist) data in
  (forall m, In m up <->
     In m data /\ In (IP m) targetlist
     /\ (PortsOpen m <> "" \/ PortsClosed m <> "" \/ PortsFiltered m <> ""))
  /\ createPortScanResults data commandString
     = banner ++ concatAll (map (hostBlock pingScan) up)
       ++ trailer (Z.of_nat (List.length targetlist)) (Z.of_nat (List.length up))
  /\ (forall m, hostBlock pingScan m <> "")
  /\ (forall m result n,
        PortsOpen m = "" -> PortsClosed m = "" -> PortsFiltered m = "" ->
        machineStep pingScan targetlist (result, n) m = (result, n))
  /\ (forall os cs fs,
        Forall (fun n => 0 <= n) os -> Forall (fun n => 0 <= n) cs ->
        Forall (fun n => 0 <= n) fs ->
        (portsText os <> "" \/ portsText cs <> "" \/ portsText fs <> "")
        <-> (os <> [] \/ cs <> [] \/ fs <> [])).
Proof.
  intros targetlist pingScan up. split; [|split; [|split; [|split]]].
  - intros m. unfold up. rewrite filter_In, reported_spec. tauto.
  - apply createPortScanResults_spec.
  - intros m. apply hostBlock_nonempty.
  - intros m result n Eo Ec Ef. rewrite machineStep_spec.
    destruct (reported targetlist m) eqn:R; [|reflexivity].
    apply reported_spec in R as (_ & [N|[N|N]]); congruence.
  - intros os cs fs Ho Hc Hf.
    rewrite (portsText_empty os Ho), (portsText_empty cs Hc), (portsText_empty fs Hf).
    tauto.
Qed.

Lemma ends_CRLF_prepend t s : (exists x, s = x ++ CRLF) -> exists x, t ++ s = x ++ CRLF.
Proof. intros (x & ->). exists (t ++ x). symmetry. apply append_assoc. Qed.

Lemma hostBlock_ends_CRLF pingScan m : exists x, hostBlock pingScan m = x ++ CRLF.
Proof.
  unfold hostBlock. do 6 apply ends_CRLF_prepend.
  destruct pingScan.
  - exists "". reflexivity.
  - do 4 apply ends_CRLF_prepend. exists "". reflexivity.
Qed.

Lemma blocks_end_CRLF pingScan l :
  l <> [] -> exists x, concatAll (map (hostBlock pingScan) l) = x ++ CRLF.
Proof.
  induction l as [|m l IH]; [congruence|]. intros _. cbn [map concatAll fold_right].
  destruct l as [|m' l].
  - simpl. rewrite append_nil_r. apply hostBlock_ends_CRLF.
  - apply ends_CRLF_prepend. apply IH. discriminate.
Qed.

(** C9: the report ends with the one trailer line, written after the
    loop over the machines.  It gives the length of the target list
    (repeated addresses and addresses of no machine included), the
    number of machines reported, and the literal [26.18]. *)
Theorem C9_trailer (data : list machine) (commandString : string) :
  let targetlist := ListIPAddresses commandString in
  let up := filter (reported targetlist) data in
  let body := banner ++ concatAll (map (hostBlock (isPingScan commandString)) up) in
  createPortScanResults data commandString
  = body ++ "Nmap done: " ++ toString (Z.of_nat (List.length targetlist))
    ++ " IP addresses (" ++ toString (Z.of_nat (List.length up))
    ++ " host up) scanned in 26.18 seconds" ++ CRLF
  /\ (exists x, body = x ++ CRLF)
  /\ (List.length up <= List.length data)%nat
  /\ createPortScanResults [] "nmap 10.0.0.1 10.0.0.1 10.10.10.10"
     = banner ++ "Nmap done: 3 IP addresses (0 host up) scanned in 26.18 seconds" ++ CRLF.
Proof.
  intros targetlist up body. split; [|split; [|split]].
  - rewrite createPortScanResults_spec. fold targetlist. fold up.
    unfold body, trailer. rewrite !append_assoc. reflexivity.
  - unfold body. destruct up as [|m up'] eqn:E.
    + exists "Starting Nmap 7.95 ( https://nmap.org )". reflexivity.
    + apply ends_CRLF_prepend. apply blocks_end_CRLF. discriminate.
  - apply filter_length_le.
  - vm_compute. reflexivity.
Qed.

Example report_ping_scan :
  let m := {| IP := "172.16.0.1"; Latency := "0.062"; PortsClosed := "";
              PortsFiltered := ""; PortsOpen := "22 53 80 443" |} in
  createPortScanResults [m] "sudo nmap -sn -oN 172.16.0.1"
  = banner ++ "Nmap scan report for 172.16.0.1" ++ CRLF
    ++ "Host it up (0.062s latency)." ++ CRLF
    ++ "Nmap done: 1 IP addresses (1 host up) scanned in 26.18 seconds" ++ CRLF
  /\ createPortScanResults [m] "sudo nmap 10.10.10.10"
     = banner ++ "Nmap done: 1 IP addresses (0 host up) scanned in 26.18 seconds" ++ CRLF.
Proof. split; vm_compute; reflexivity. Qed.

(** * Further properties of the helpers *)

(** ** [int2ip] and [ip2int] *)

Lemma octets_of_value v :
  0 <= v < 2 ^ 32 ->
  isOctet (v / 2 ^ 24) /\ isOctet (v / 2 ^ 16 mod 256)
  /\ isOctet (v / 2 ^ 8 mod 256) /\ isOctet (v mod 256).
Proof.
  intros Hv. unfold isOctet.
  pose proof (Z.mod_pos_bound (v / 2 ^ 16) 256 ltac:(lia)).
  pose proof (Z.mod_pos_bound (v / 2 ^ 8) 256 ltac:(lia)).
  pose proof (Z.mod_pos_bound v 256 ltac:(lia)).
  assert (0 <= v / 2 ^ 24) by (apply Z.div_pos; lia).
  assert (v / 2 ^ 24 < 256) by (apply Z.div_lt_upper_bound; lia).
  lia.
Qed.

Lemma quadValue_of_octets v :
  0 <= v < 2 ^ 32 ->
  quadValue (v / 2 ^ 24) (v / 2 ^ 16 mod 256) (v / 2 ^ 8 mod 256) (v mod 256) = v.
Proof.
  intros Hv. unfold quadValue.
  pose proof (Z.div_mod v 256 ltac:(lia)) as E0.
  pose proof (Z.div_mod (v / 2 ^ 8) 256 ltac:(lia)) as E1.
  pose proof (Z.div_mod (v / 2 ^ 16) 256 ltac:(lia)) as E2.
  assert (D1 : v / 2 ^ 8 / 256 = v / 2 ^ 16).
  { rewrite Z.div_div by lia. reflexivity. }
  assert (D2 : v / 2 ^ 16 / 256 = v / 2 ^ 24).
  { rewrite Z.div_div by lia. reflexivity. }
  change (2 ^ 8) with 256 in *. rewrite D1 in E1. rewrite D2 in E2. lia.
Qed.

(** X6: converting any integer to a dotted quad and back gives its
    unsigned 32-bit value: [int2ip] reads its argument modulo [2 ^ 32],
    and [ip2int] inverts it on that range. *)
Theorem ip2int_int2ip (ip : Z) : ip2int (int2ip ip) = ip mod 2 ^ 32.
Proof.
  rewrite int2ip_spec. set (v := ip mod 2 ^ 32).
  assert (Hv : 0 <= v < 2 ^ 32) by (apply Z.mod_pos_bound; lia).
  destruct (octets_of_value v Hv) as (A & B & C & D).
  unfold quadOfValue. rewrite ip2int_quad by assumption.
  apply quadValue_of_octets. assumption.
Qed.

(** X7: [ip2int] reads a dotted quad as the big-endian unsigned 32-bit
    number of its octets, never a negative one, and [int2ip] gives the
    same text back. *)
Theorem int2ip_ip2int (a b c d : Z) :
  isOctet a -> isOctet b -> isOctet c -> isOctet d ->
  ip2int (quad a b c d) = a * 2 ^ 24 + b * 2 ^ 16 + c * 2 ^ 8 + d
  /\ 0 <= ip2int (quad a b c d) < 2 ^ 32
  /\ int2ip (ip2int (quad a b c d)) = quad a b c d.
Proof.
  intros Ha Hb Hc Hd. rewrite ip2int_quad by assumption.
  pose proof (quadValue_range a b c d Ha Hb Hc Hd) as R.
  split; [reflexivity|]. split; [exact R|].
  rewrite int2ip_spec, Z.mod_small by exact R.
  apply quadOfValue_quadValue; assumption.
Qed.

Lemma int2ip_ip2int_witness :
  ip2int (quad 200 1 2 3) = 200 * 2 ^ 24 + 1 * 2 ^ 16 + 2 * 2 ^ 8 + 3
  /\ 0 <= ip2int (quad 200 1 2 3) < 2 ^ 32
  /\ int2ip (ip2int (quad 200 1 2 3)) = quad 200 1 2 3.
Proof. apply (int2ip_ip2int 200 1 2 3); unfold isOctet; lia. Defined.

(** ** [subnetMaskToNumber] *)

Lemma testbit_neg_pow2 k i :
  0 <= k -> 0 <= i -> Z.testbit (- 2 ^ k) i = (k <=? i).
Proof.
  intros Hk Hi. replace (- 2 ^ k) with (Z.lnot (Z.ones k))
    by (rewrite Z.ones_equiv; unfold Z.lnot; lia).
  rewrite Z.lnot_spec by assumption.
  rewrite Z.testbit_ones_nonneg by assumption.
  destruct (Z.ltb_spec i k), (Z.leb_spec k i); try reflexivity; lia.
Qed.

(** X8: the mask of a prefix length [p], a natural number below
    [2 ^ 53] given in decimal, is the signed number whose bits from
    [(32 - p) mod 32] upwards are set.  For [1 <= p <= 32] these are
    the [p] leading bits of a 32-bit word; the shift count is taken
    modulo 32, so the prefix length 0 gets the mask of 32 (all ones),
    not the empty mask. *)
Theorem subnetMaskToNumber_bits (p : Z) :
  isSafeNatural p ->
  subnetMaskToNumber (toString p) = - 2 ^ ((32 - p) mod 32)
  /\ (forall i, 0 <= i ->
        Z.testbit (subnetMaskToNumber (toString p)) i = ((32 - p) mod 32 <=? i))
  /\ (1 <= p <= 32 -> subnetMaskToNumber (toString p) mod 2 ^ 32 = 2 ^ 32 - 2 ^ (32 - p))
  /\ subnetMaskToNumber (toString 0) = subnetMaskToNumber (toString 32).
Proof.
  intros [Hp _].
  pose proof (Z.mod_pos_bound (32 - p) 32 ltac:(lia)) as Hk.
  set (k := (32 - p) mod 32) in *.
  assert (Hk31 : 2 ^ k <= 2 ^ 31) by (apply Z.pow_le_mono_r; lia).
  assert (Hk0 : 0 < 2 ^ k) by (apply Z.pow_pos_nonneg; lia).
  assert (E : subnetMaskToNumber (toString p) = - 2 ^ k).
  { unfold subnetMaskToNumber. rewrite Number_toString by assumption.
    unfold shl. change (ToInt32 4294967295) with (-1). fold k.
    rewrite Z.shiftl_mul_pow2 by lia.
    rewrite (ToInt32_small (-1 * 2 ^ k)) by lia.
    unfold band. change (ToInt32 4294967295) with (-1).
    rewrite Z.land_m1_r. rewrite ToInt32_small by lia. lia. }
  split; [exact E|]. split; [|split].
  - intros i Hi. rewrite E. apply testbit_neg_pow2; lia.
  - intros R. rewrite E. unfold k. rewrite (Z.mod_small (32 - p)) by lia.
    assert (2 ^ (32 - p) <= 2 ^ 31) by (apply Z.pow_le_mono_r; lia).
    assert (0 < 2 ^ (32 - p)) by (apply Z.pow_pos_nonneg; lia).
    rewrite <- (Z_mod_plus_full (- 2 ^ (32 - p)) 1 (2 ^ 32)).
    rewrite Z.mod_small; lia.
  - reflexivity.
Qed.

Lemma subnetMaskToNumber_bits_witness :
  subnetMaskToNumber (toString 24) = - 2 ^ ((32 - 24) mod 32)
  /\ (forall i, 0 <= i ->
        Z.testbit (subnetMaskToNumber (toString 24)) i = ((32 - 24) mod 32 <=? i))
  /\ (1 <= 24 <= 32 -> subnetMaskToNumber (toString 24) mod 2 ^ 32 = 2 ^ 32 - 2 ^ (32 - 24))
  /\ subnetMaskToNumber (toString 0) = subnetMaskToNumber (toString 32).
Proof. apply (subnetMaskToNumber_bits 24). unfold isSafeNatural. lia. Defined.

(** * Further properties of [ListIPAddresses] *)

Lemma nothing_matches_empty n s' : ~ Matches n testAnyMatch "" s'.
Proof.
  intros H. destruct (Matches_whole _ testAnyMatch _ _ eq_refl H) as (_ & B).
  destruct (B "."%char) as (B1 & _). change (minCount "." testAnyMatch) with 3%nat in B1.
  simpl in B1. lia.
Qed.

(** X9: a command that is empty, or whose last character is one that no
    address grammar consumes (a letter, a space, a line break), has no
    trailing token: the loop body never runs and the result is empty,
    whatever addresses stand earlier in the command. *)
Theorem no_trailing_token (commandString : string) :
  tokenBoundary commandString ->
  str_match commandString testAnyMatch = None /\ ListIPAddresses commandString = [].
Proof.
  intros Hb.
  assert (M : str_match commandString testAnyMatch = None).
  { rewrite <- (append_nil_r commandString). apply str_match_token_none; [assumption|].
    intros v u s' E. destruct v; [|discriminate]. simpl in E. subst u.
    apply nothing_matches_empty. }
  split; [exact M | apply ListIPAddresses_done; exact M].
Qed.

Lemma no_trailing_token_witness :
  str_match "nmap 10.0.0.1 -sV" testAnyMatch = None
  /\ ListIPAddresses "nmap 10.0.0.1 -sV" = [].
Proof.
  apply (no_trailing_token "nmap 10.0.0.1 -sV").
  right. exists "nmap 10.0.0.1 -s", "V"%char. split; reflexivity.
Defined.

(** The search returns the leftmost start position that matches. *)
Lemma search_leftmost n r : forall s t v u s',
  endAnchored r = true ->
  search n r s = Some t -> s = v ++ u -> Matches n r u s' ->
  (String.length u <= String.length t)%nat.
Proof.
  induction s as [|c s IH]; intros t v u s' Ha S E M; rewrite search_unfold in S.
  - destruct v; [|discriminate]. simpl in E. subst u. simpl. lia.
  - destruct (run n r (String c s)) as [|rest l] eqn:R.
    + destruct v as [|c' v].
      * simpl in E. subst u. apply run_complete in M. rewrite R in M. destruct M.
      * cbn [append] in E. injection E as -> E. eapply IH; eassumption.
    + assert (Hr : Matches n r (String c s) rest)
        by (apply run_sound; rewrite R; left; reflexivity).
      pose proof (Matches_endAnchored _ _ _ _ Ha Hr) as ->.
      change (String.length "") with 0%nat in S.
      rewrite Nat.sub_0_r, take_all in S. injection S as <-.
      rewrite E, length_append. lia.
Qed.

(** X10: the pattern is anchored at the end only, so what is matched is
    the longest suffix of the command that belongs to one of the
    grammars; text glued in front of a token never prevents the match,
    it can only extend it. *)
Theorem longest_matching_suffix (commandString : string) :
  (forall tok, str_match commandString testAnyMatch = Some tok ->
     (exists v, commandString = v ++ tok)
     /\ Matches (String.length commandString) testAnyMatch tok ""
     /\ forall v u, commandString = v ++ u ->
          Matches (String.length commandString) testAnyMatch u "" ->
          (String.length u <= String.length tok)%nat)
  /\ (forall v u, commandString = v ++ u ->
        Matches (String.length commandString) testAnyMatch u "" ->
        exists w, str_match commandString testAnyMatch = Some (w ++ u)).
Proof.
  split.
  - intros tok H. split; [apply str_match_suffix in H; tauto|].
    split; [apply str_match_Matches; assumption|].
    intros v u E M. eapply (search_leftmost _ testAnyMatch); try eassumption. reflexivity.
  - intros v u E M.
    destruct (search_some _ _ _ _ _ _ E M) as (t & S).
    pose proof (search_leftmost _ testAnyMatch _ _ _ _ _ eq_refl S E M) as L.
    pose proof S as S'. apply search_some_inv in S' as (v' & u' & s' & E' & M' & Eu).
    pose proof (Matches_endAnchored _ testAnyMatch _ _ eq_refl M') as ->.
    rewrite append_nil_r in Eu. subst u'.
    (* both [u] and [t] are suffixes of the command, and [t] is the longer *)
    assert (X : exists w, t = w ++ u).
    { rewrite E in E'. apply append_eq_append in E' as [(l & -> & ->)|(l & -> & ->)].
      - exists l. reflexivity.
      - rewrite length_append in L.
        assert (l = "") by (apply length_zero_empty; lia). subst l.
        exists "". reflexivity. }
    destruct X as (w & ->). exists w. exact S.
Qed.

Lemma longest_matching_suffix_witness :
  (exists v, "nmap 256.1.1.1" = v ++ "56.1.1.1")
  /\ Matches (String.length "nmap 256.1.1.1") testAnyMatch "56.1.1.1" ""
  /\ forall v u, "nmap 256.1.1.1" = v ++ u ->
       Matches (String.length "nmap 256.1.1.1") testAnyMatch u "" ->
       (String.length u <= String.length "56.1.1.1")%nat.
Proof.
  destruct (longest_matching_suffix "nmap 256.1.1.1") as [L _].
  apply L. vm_compute. reflexivity.
Defined.

(** ** What the octet pattern accepts *)

Lemma isDigit_digitChars c : isDigit c = true -> In c digitChars.
Proof.
  unfold isDigit. intros H. apply andb_true_iff in H as [H1 H2].
  apply Nat.leb_le in H1, H2. rewrite <- (ascii_nat_embedding c).
  set (n := nat_of_ascii c) in *.
  assert (E : (n = 48 \/ n = 49 \/ n = 50 \/ n = 51 \/ n = 52 \/ n = 53 \/ n = 54
              \/ n = 55 \/ n = 56 \/ n = 57)%nat) by lia.
  repeat (destruct E as [->|E]; [vm_compute; tauto|]). rewrite E. vm_compute; tauto.
Qed.

Lemma In_digitStrings k : forall w,
  allDigits w = true -> (String.length w <= k)%nat -> In w (digitStrings k).
Proof.
  induction k as [|k IH]; intros w Hd Hl.
  - destruct w; [left; reflexivity | simpl in Hl; lia].
  - destruct w as [|c w]; [left; reflexivity|]. right.
    simpl in Hd, Hl. apply andb_true_iff in Hd as [Hc Hd].
    apply in_flat_map. exists c. split; [apply isDigit_digitChars; assumption|].
    apply in_map. apply IH; [assumption | lia].
Qed.

Lemma uses_octet_digit c : uses c octet = true -> isDigit c = true.
Proof.
  destruct c as [b0 b1 b2 b3 b4 b5 b6 b7].
  destruct b0, b1, b2, b3, b4, b5, b6, b7; vm_compute; intros H; congruence.
Qed.

Lemma consumed_digits w :
  (forall c, uses c octet = false -> count c w = 0%nat) -> allDigits w = true.
Proof.
  induction w as [|c w IH]; intros H; [reflexivity|]. cbn [allDigits].
  apply andb_true_iff. split.
  - apply uses_octet_digit. destruct (uses c octet) eqn:U; [reflexivity|].
    specialize (H c U). simpl in H. rewrite Ascii.eqb_refl in H. discriminate.
  - apply IH. intros c' U. specialize (H c' U). simpl in H.
    destruct (Ascii.eqb c c'); [discriminate | exact H].
Qed.

Lemma octet_table :
  forallb (fun w => implb (existsb (String.eqb "") (run 0 octet w))
                          (existsb (String.eqb w) octetTexts))
          (digitStrings 3) = true.
Proof. vm_compute. reflexivity. Qed.

(** A pattern without anchors does not look at the text it leaves. *)
Lemma Matches_consumed n n' r s s' :
  anchorFree r = true -> Matches n r s s' ->
  exists w, s = w ++ s' /\ Matches n' r w "".
Proof.
  intros Ha H; induction H; simpl in Ha;
    try (apply andb_true_iff in Ha as [Ha1 Ha2]); try discriminate.
  - exists "". split; [reflexivity | constructor].
  - exists (String c ""). split; [reflexivity | constructor].
  - exists (String c ""). split; [reflexivity | constructor; assumption].
  - destruct (IHMatches1 Ha1) as (w1 & -> & M1).
    destruct (IHMatches2 Ha2) as (w2 & -> & M2).
    exists (w1 ++ w2). split; [symmetry; apply append_assoc|].
    econstructor; [|exact M2].
    apply (Matches_frame n' n' r1 w1 "" w2 Ha1 M1).
  - destruct (IHMatches Ha1) as (w & -> & M). exists w. split; [reflexivity|].
    apply MAltL; assumption.
  - destruct (IHMatches Ha2) as (w & -> & M). exists w. split; [reflexivity|].
    apply MAltR; assumption.
  - exists "". split; [reflexivity | constructor].
  - destruct (IHMatches Ha) as (w & -> & M). exists w. split; [reflexivity|].
    apply MOptSome; [assumption|]. rewrite length_append in H0. simpl. lia.
  - destruct (IHMatches Ha) as (w & -> & M). exists w. split; [reflexivity|].
    apply MPlusOne; assumption.
  - destruct (IHMatches1 Ha) as (w1 & -> & M1).
    destruct (IHMatches2 Ha) as (w2 & -> & M2).
    exists (w1 ++ w2). split; [symmetry; apply append_assoc|].
    eapply MPlusMore; [|exact M2|].
    + apply (Matches_frame n' n' (Plus r) w1 "" w2 Ha M1).
    + rewrite length_append in H1. simpl. lia.
Qed.

Lemma In_existsb_eqb w l : In w l -> existsb (String.eqb w) l = true.
Proof.
  intros H. apply existsb_exists. exists w. split; [assumption | apply String.eqb_refl].
Qed.

(** What [octet] consumes is the decimal text of a number from 0 to
    255, without leading zero. *)
Lemma octet_inv n s s' :
  Matches n octet s s' -> exists a, isOctet a /\ s = toString a ++ s'.
Proof.
  intros H. destruct (Matches_consumed n 0 octet s s' eq_refl H) as (w & -> & M).
  destruct (Matches_consumes _ _ _ _ M) as (w' & E & B).
  rewrite append_nil_r in E. subst w'.
  assert (Hd : allDigits w = true) by (apply consumed_digits; intros c; apply B).
  assert (Hl : (String.length w <= 3)%nat)
    by (destruct (B "0"%char) as (_ & _ & B3); apply B3; reflexivity).
  pose proof octet_table as T. rewrite forallb_forall in T.
  specialize (T w (In_digitStrings 3 w Hd Hl)).
  rewrite (In_existsb_eqb "" _ (run_complete _ _ _ _ M)) in T. cbn [implb] in T.
  apply existsb_exists in T as (t & Ht & Et). apply String.eqb_eq in Et. subst t.
  unfold octetTexts in Ht. apply in_map_iff in Ht as (k & <- & Hk).
  apply in_seq in Hk. exists (Z.of_nat k). split; [unfold isOctet; lia | reflexivity].
Qed.

Lemma dottedQuad_inv n s s' :
  Matches n dottedQuad s s' ->
  exists a b c d, isOctet a /\ isOctet b /\ isOctet c /\ isOctet d
                  /\ s = quad a b c d ++ s'.
Proof.
  unfold dottedQuad. cbn [times]. intros H.
  inversion H as [| | |r1 r2 s0 s1 s2 H1 H2| | | | | | | |]; subst; clear H.
  apply octet_inv in H2 as (d & Hd & ->).
  inversion H1 as [| | |r1 r2 s0 s1 s2 H3 H4| | | | | | | |]; subst; clear H1.
  inversion H3 as [| | |r1 r2 s0 s1' s2 H5 H6| | | | | | | |]; subst; clear H3.
  inversion H6; subst; clear H6.
  apply octet_inv in H5 as (a & Ha & ->).
  inversion H4 as [| | |r1 r2 s0 s1' s2 H7 H8| | | | | | | |]; subst; clear H4.
  inversion H7 as [| | |r1 r2 s0 s1'' s2 H9 H10| | | | | | | |]; subst; clear H7.
  inversion H10; subst; clear H10.
  apply octet_inv in H9 as (b & Hb & ->).
  inversion H8 as [| | |r1 r2 s0 s1'' s2 H11 H12| | | | | | | |]; subst; clear H8.
  inversion H12; subst; clear H12.
  apply octet_inv in H11 as (c & Hc & ->).
  exists a, b, c, d. repeat (split; [assumption|]).
  rewrite quad_unfold. rewrite !append_assoc. cbn [append].
  rewrite !append_assoc. cbn [append]. rewrite !append_assoc. reflexivity.
Qed.

Lemma octetOrRange_inv n s s' :
  Matches n octetOrRange s s' -> exists f, fieldOk f /\ s = fieldText f ++ s'.
Proof.
  unfold octetOrRange. intros H.
  inversion H as [| | |r1 r2 s0 s1 s2 H1 H2| | | | | | | |]; subst; clear H.
  apply octet_inv in H1 as (a & Ha & ->).
  inversion H2 as [| | | | | |r s0|r s0 s0' H3 Hlt| | | |]; subst; clear H2.
  - exists (Bare a). split; [assumption | reflexivity].
  - inversion H3 as [| | |r1 r2 s0 s1' s2 H4 H5| | | | | | | |]; subst; clear H3.
    inversion H4; subst; clear H4.
    apply octet_inv in H5 as (b & Hb & ->).
    exists (Span a b). split; [split; assumption|].
    cbn [fieldText]. rewrite append_assoc. reflexivity.
Qed.

Lemma hyphenQuad_inv n tok :
  Matches n testNmapHyphenOrSingle tok "" ->
  exists f1 f2 f3 f4, fieldOk f1 /\ fieldOk f2 /\ fieldOk f3 /\ fieldOk f4
                      /\ tok = hyphenToken f1 f2 f3 f4.
Proof.
  unfold testNmapHyphenOrSingle, hyphenQuad. cbn [times]. intros H.
  inversion H as [| | |r1 r2 s0 s1 s2 H1 H2| | | | | | | |]; subst; clear H.
  inversion H2; subst; clear H2.
  inversion H1 as [| | |r1 r2 s0 s1 s2 H3 H4| | | | | | | |]; subst; clear H1.
  apply octetOrRange_inv in H4 as (f4 & F4 & E4). rewrite append_nil_r in E4. subst s1.
  inversion H3 as [| | |r1 r2 s0 s1 s2 H5 H6| | | | | | | |]; subst; clear H3.
  inversion H5 as [| | |r1 r2 s0 s1' s2 H7 H8| | | | | | | |]; subst; clear H5.
  inversion H8; subst; clear H8.
  apply octetOrRange_inv in H7 as (f1 & F1 & ->).
  inversion H6 as [| | |r1 r2 s0 s1' s2 H9 H10| | | | | | | |]; subst; clear H6.
  inversion H9 as [| | |r1 r2 s0 s1'' s2 H11 H12| | | | | | | |]; subst; clear H9.
  inversion H12; subst; clear H12.
  apply octetOrRange_inv in H11 as (f2 & F2 & ->).
  inversion H10 as [| | |r1 r2 s0 s1'' s2 H13 H14| | | | | | | |]; subst; clear H10.
  inversion H14; subst; clear H14.
  apply octetOrRange_inv in H13 as (f3 & F3 & ->).
  exists f1, f2, f3, f4. repeat (split; [assumption|]). reflexivity.
Qed.

(** [_.range] between two octets stays between them, in either
    direction. *)
Lemma range_octets lo hi :
  isOctet lo -> isOctet hi -> Forall isOctet (Lodash.range lo (hi + 1)).
Proof.
  unfold isOctet. intros Hlo Hhi. apply Forall_forall. intros x Hx.
  unfold Lodash.range in Hx. apply in_map_iff in Hx as (k & <- & Hk).
  apply in_seq in Hk. destruct (Z.ltb_spec lo (hi + 1)).
  - rewrite Z.div_1_r in Hk. lia.
  - replace ((hi + 1 - lo) / -1) with (lo - (hi + 1)) in Hk
      by (apply Z.div_unique_exact; lia).
    lia.
Qed.

Lemma octetValues_octets f : fieldOk f -> Forall isOctet (octetValues (fieldText f)).
Proof.
  destruct f as [a|lo hi]; simpl; unfold octetValues.
  - intros Ha. rewrite includes_absent by (apply toString_count; [apply Ha | reflexivity]).
    rewrite Number_toString by apply Ha. constructor; [assumption | constructor].
  - intros [Hlo Hhi]. cbn [append]. rewrite includes_present.
    rewrite split_append by (apply toString_count; [apply Hlo | reflexivity]).
    rewrite split_nosep by (apply toString_count; [apply Hhi | reflexivity]).
    unfold at_. cbn [nth]. rewrite !Number_toString by (apply Hlo || apply Hhi).
    apply range_octets; assumption.
Qed.

Lemma octetMajor_addresses A B C D :
  Forall isOctet A -> Forall isOctet B -> Forall isOctet C -> Forall isOctet D ->
  Forall isAddress (octetMajor A B C D).
Proof.
  rewrite !Forall_forall. intros HA HB HC HD x Hx. unfold octetMajor in Hx.
  apply in_flat_map in Hx as (a & Ia & Hx).
  apply in_flat_map in Hx as (b & Ib & Hx).
  apply in_flat_map in Hx as (c & Ic & Hx).
  apply in_map_iff in Hx as (d & <- & Id).
  exists a, b, c, d. split; [|split; [|split; [|split]]]; auto.
Qed.

Lemma int2ip_address i : isAddress (int2ip i).
Proof.
  rewrite int2ip_spec. unfold quadOfValue.
  destruct (octets_of_value (i mod 2 ^ 32) (Z.mod_pos_bound i (2 ^ 32) eq_refl)) as (A & B & C & D).
  do 4 eexists. split; [exact A|]. split; [exact B|]. split; [exact C|].
  split; [exact D | reflexivity].
Qed.

(** What passes [testSingleIP] is one address and nothing else. *)
Lemma single_inv tok : test testSingleIP tok = true -> isAddress tok.
Proof.
  intros T. apply test_true_inv in T as (v & u & s' & E & M).
  unfold testSingleIP in M.
  inversion M as [| | |r1 r2 s0 s1 s2 Hb Hq| | | | | | | |]; subst; clear M.
  inversion Hb; subst; clear Hb.
  assert (v = "") by (apply (append_same_length_inv v s1); symmetry; assumption).
  subst v. cbn [append] in *.
  inversion Hq as [| | |r1 r2 s0 s1' s2 Hd He| | | | | | | |]; subst; clear Hq.
  inversion He; subst; clear He.
  apply dottedQuad_inv in Hd as (a & b & c & d & Ha & Hb & Hc & Hd & ->).
  rewrite append_nil_r. exists a, b, c, d. auto.
Qed.

(** A matched text that fails the first three tests is a per-octet
    token. *)
Lemma matched_residual n tok :
  Matches n testAnyMatch tok "" ->
  test testStartStop tok = false -> test testCIDR tok = false ->
  test testSingleIP tok = false ->
  Matches n testNmapHyphenOrSingle tok "".
Proof.
  intros H T1 T2 T3. destruct (anyMatch_cases _ _ H) as [A|[A|A]]; [| |exact A]; exfalso.
  - rewrite (test_true testStartStop tok "" tok "") in T1; [discriminate | reflexivity|].
    apply (Matches_bolFree n _ testStartStop _ _ eq_refl A).
  - inversion A as [| | |r1 r2 s0 s1 s2 H1 H2| | | | | | | |]; subst; clear A.
    inversion H2; subst; clear H2.
    inversion H1 as [| | |r1 r2 s0 s1 s2 H3 H4| | | | | | | |]; subst; clear H1.
    inversion H4 as [| | | | | |r s0|r s0 s0' H5 Hlt| | | |]; subst; clear H4.
    + rewrite (test_true testSingleIP tok "" tok "") in T3; [discriminate | reflexivity|].
      unfold testSingleIP. eapply MCat; [apply MBol; reflexivity|].
      eapply MCat; [|apply MEol].
      apply (Matches_bolFree n _ dottedQuad _ _ eq_refl H3).
    + rewrite (test_true testCIDR tok "" tok "") in T2; [discriminate | reflexivity|].
      unfold testCIDR. eapply MCat; [|apply MEol].
      eapply MCat.
      * apply (Matches_bolFree n _ dottedQuad _ _ eq_refl H3).
      * apply MPlusOne. apply (Matches_bolFree n _ slashPrefix _ _ eq_refl H5).
Qed.

(** Whatever branch takes a matched text, it pushes addresses only. *)
Lemma expand_addresses cmd tok :
  str_match cmd testAnyMatch = Some tok -> Forall isAddress (expand tok).
Proof.
  intros H. apply str_match_Matches in H. unfold expand, classify.
  destruct (test testStartStop tok) eqn:T1.
  { apply Forall_forall. intros x Hx. apply in_map_iff in Hx as (i & <- & _).
    apply int2ip_address. }
  destruct (test testCIDR tok) eqn:T2.
  { apply Forall_forall. intros x Hx. apply in_map_iff in Hx as (i & <- & _).
    apply int2ip_address. }
  destruct (test testSingleIP tok) eqn:T3.
  { constructor; [apply single_inv; assumption | constructor]. }
  destruct (test testNmapHyphenOrSingle tok) eqn:T4; cbn [negb andb]; [|constructor].
  pose proof (matched_residual _ _ H T1 T2 T3) as M.
  apply hyphenQuad_inv in M as (f1 & f2 & f3 & f4 & F1 & F2 & F3 & F4 & ->).
  rewrite (split_hyphen f1 f2 f3 f4 F1 F2 F3 F4). unfold at_. cbn [nth].
  apply (octetMajor_addresses (octetValues (fieldText f1)) (octetValues (fieldText f2))
           (octetValues (fieldText f3)) (octetValues (fieldText f4)));
    apply octetValues_octets; assumption.
Qed.

Lemma ListIPAddresses_addresses cmd : Forall isAddress (ListIPAddresses cmd).
Proof.
  remember (String.length cmd) as k eqn:Ek.
  revert cmd Ek. induction k as [k IH] using lt_wf_ind. intros cmd ->.
  destruct (str_match cmd testAnyMatch) as [tok|] eqn:E.
  - rewrite (ListIPAddresses_step _ _ E). apply Forall_app. split.
    + apply (expand_addresses _ _ E).
    + apply (IH _ (carve_shorter _ _ E) _ eq_refl).
  - rewrite (ListIPAddresses_done _ E). constructor.
Qed.

(** X11: every entry of the list that [ListIPAddresses] returns is a
    dotted quad of four numbers from 0 to 255 in decimal without
    leading zeros, whatever the command string: the start-stop and
    CIDR branches render 32-bit values, the single-address branch
    pushes a text that [testSingleIP] accepts in full, and the
    per-octet branch combines values of [_.range] between two octets,
    which stay between them also when the range runs backwards.
    [ip2int] maps the entry back to the 32-bit value of its octets. *)
Theorem addresses_are_dotted_quads (commandString x : string) :
  In x (ListIPAddresses commandString) ->
  exists a b c d,
    isOctet a /\ isOctet b /\ isOctet c /\ isOctet d
    /\ x = quad a b c d
    /\ ip2int x = quadValue a b c d.
Proof.
  intros Hx. pose proof (ListIPAddresses_addresses commandString) as F.
  rewrite Forall_forall in F. destruct (F x Hx) as (a & b & c & d & Ha & Hb & Hc & Hd & ->).
  exists a, b, c, d. repeat (split; [assumption|]).
  split; [reflexivity | apply ip2int_quad; assumption].
Qed.

Lemma addresses_are_dotted_quads_witness :
  exists a b c d,
    isOctet a /\ isOctet b /\ isOctet c /\ isOctet d
    /\ "10.0.0.4" = quad a b c d
    /\ ip2int "10.0.0.4" = quadValue a b c d.
Proof.
  apply (addresses_are_dotted_quads "nmap 10.0.0.5-2"). vm_compute.
  right; left; reflexivity.
Defined.

(** X12: a machine is reported only if its [IP] text is a dotted quad
    of four octets in decimal without leading zeros: a machine whose
    address is written differently in the data (a leading zero, a
    space around it) is in no report, whatever the command. *)
Theorem reported_address (commandString : string) (m : machine) :
  reported (ListIPAddresses commandString) m = true ->
  exists a b c d,
    isOctet a /\ isOctet b /\ isOctet c /\ isOctet d /\ IP m = quad a b c d.
Proof.
  intros R. apply reported_spec in R as (Hin & _).
  pose proof (ListIPAddresses_addresses commandString) as F.
  rewrite Forall_forall in F. exact (F _ Hin).
Qed.

Lemma reported_address_witness :
  exists a b c d,
    isOctet a /\ isOctet b /\ isOctet c /\ isOctet d /\ "10.0.0.1" = quad a b c d.
Proof.
  apply (reported_address "nmap 10.0.0.1"
           {| IP := "10.0.0.1"; Latency := "0.01"; PortsClosed := "";
              PortsFiltered := ""; PortsOpen := "80" |}).
  vm_compute. reflexivity.
Defined.

(** * Further properties of [createPortScanResults] *)

Lemma split_head_prefix s sep p ps : split s sep = p :: ps -> exists y, s = p ++ y.
Proof.
  revert p ps. induction s as [|c s IH]; intros p ps; cbn [split].
  - intros [= <- <-]. exists "". reflexivity.
  - destruct (Ascii.eqb c sep).
    + intros [= <- _]. exists (String c s). reflexivity.
    + destruct (split s sep) as [|p' ps'] eqn:E.
      * intros [= <- _]. exfalso. exact (split_not_nil s sep E).
      * intros [= <- _]. destruct (IH p' ps' eq_refl) as (y & ->).
        exists y. reflexivity.
Qed.

(** Every part that [split] returns occurs in the text. *)
Lemma split_part_included s sep w : In w (split s sep) -> includes s w = true.
Proof.
  intros H. apply includes_iff. revert w H.
  induction s as [|c s IH]; intros w; cbn [split].
  - intros [<-|[]]. exists "", "". reflexivity.
  - destruct (Ascii.eqb c sep).
    + intros [<-|H].
      * exists "", (String c s). reflexivity.
      * destruct (IH w H) as (x & y & ->). exists (String c x), y. reflexivity.
    + destruct (split s sep) as [|p ps] eqn:E.
      * intros [<-|[]]. exists "", s. reflexivity.
      * destruct (split_head_prefix s sep p ps E) as (y & Ey).
        intros [<-|H].
        -- exists "", y. cbn [append]. rewrite Ey. reflexivity.
        -- destruct (IH w (or_intror H)) as (x & y' & ->).
           exists (String c x), y'. reflexivity.
Qed.

Lemma In_sortedPorts m w :
  In w (sortedPorts m) ->
  In w (split (PortsFiltered m) " ") \/ In w (split (PortsClosed m) " ")
  \/ In w (split (PortsOpen m) " ").
Proof.
  unfold sortedPorts. intros H.
  apply (Permutation_in _ (sort_perm byNumber _)) in H.
  cbn [append] in H. rewrite !split_join in H.
  apply in_app_or in H as [H|H]; [auto|].
  apply in_app_or in H as [H|H]; auto.
Qed.

(** X13: every port line carries a state: the words of [sortedports]
    come from the three category texts, so the substring test of one of
    them succeeds and the label is never left out, whatever the texts
    hold. *)
Theorem port_line_labelled (m : machine) (word : string) :
  In word (emittedPorts m) ->
  word <> ""
  /\ (stateLabel m word = "filtered " \/ stateLabel m word = "open "
      \/ stateLabel m word = "closed ").
Proof.
  unfold emittedPorts. intros H. apply filter_In in H as [H N].
  split; [apply nonempty_spec; exact N|].
  unfold stateLabel.
  destruct (includes (PortsFiltered m) word) eqn:F; [auto|].
  destruct (includes (PortsOpen m) word) eqn:O; [auto|].
  destruct (includes (PortsClosed m) word) eqn:C; [auto|].
  exfalso. apply In_sortedPorts in H as [H|[H|H]];
    apply split_part_included in H; congruence.
Qed.

Lemma port_line_labelled_witness :
  let m := {| IP := "8.8.8.8"; Latency := "0.666"; PortsClosed := "200";
              PortsFiltered := "300"; PortsOpen := "100" |} in
  "200" <> ""
  /\ (stateLabel m "200" = "filtered " \/ stateLabel m "200" = "open "
      \/ stateLabel m "200" = "closed ").
Proof.
  intros m. apply (port_line_labelled m "200"). vm_compute. auto.
Defined.

Lemma arrayIncludes_ext t1 t2 x :
  (forall y, In y t1 <-> In y t2) -> arrayIncludes t1 x = arrayIncludes t2 x.
Proof.
  intros H. apply eq_true_iff_eq. rewrite !arrayIncludes_In. apply H.
Qed.

(** X14: the target list is only tested for membership.  Two commands
    in the same scan mode whose target lists hold the same addresses
    give the same host blocks and the same host count; only the number
    of requested addresses in the trailer can differ (an address named
    twice is counted twice but reported once). *)
Theorem report_depends_on_membership (data : list machine) (c1 c2 : string) :
  isPingScan c1 = isPingScan c2 ->
  (forall x, In x (ListIPAddresses c1) <-> In x (ListIPAddresses c2)) ->
  exists body up,
    createPortScanResults data c1
    = body ++ trailer (Z.of_nat (List.length (ListIPAddresses c1))) up
    /\ createPortScanResults data c2
       = body ++ trailer (Z.of_nat (List.length (ListIPAddresses c2))) up.
Proof.
  intros Hp Hm.
  assert (F : filter (reported (ListIPAddresses c1)) data
              = filter (reported (ListIPAddresses c2)) data).
  { apply filter_ext. intros m. unfold reported.
    rewrite (arrayIncludes_ext _ _ (IP m) Hm). reflexivity. }
  exists (banner ++ concatAll (map (hostBlock (isPingScan c1))
                                   (filter (reported (ListIPAddresses c1)) data))).
  exists (Z.of_nat (List.length (filter (reported (ListIPAddresses c1)) data))).
  rewrite !createPortScanResults_spec. cbv zeta.
  rewrite <- Hp, <- F, !append_assoc. split; reflexivity.
Qed.

Lemma report_depends_on_membership_witness :
  let data :=
    [ {| IP := "10.0.0.2"; Latency := "0.02"; PortsClosed := "";
         PortsFiltered := ""; PortsOpen := "22 80" |};
      {| IP := "10.0.0.3"; Latency := "0.03"; PortsClosed := "443";
         PortsFiltered := ""; PortsOpen := "" |};
      {| IP := "10.0.0.1"; Latency := "0.01"; PortsClosed := "";
         PortsFiltered := "25"; PortsOpen := "80" |} ] in
  let c1 := "nmap 10.0.0.1 10.0.0.2 10.0.0.1" in
  let c2 := "nmap 10.0.0.1-2" in
  (ListIPAddresses c1 = ["10.0.0.1"; "10.0.0.1"; "10.0.0.2"]
   /\ ListIPAddresses c2 = ["10.0.0.1"; "10.0.0.2"]
   /\ List.length (filter (reported (ListIPAddresses c1)) data) = 2%nat)
  /\ exists body up,
       createPortScanResults data c1
       = body ++ trailer (Z.of_nat (List.length (ListIPAddresses c1))) up
       /\ createPortScanResults data c2
          = body ++ trailer (Z.of_nat (List.length (ListIPAddresses c2))) up.
Proof.
  intros data c1 c2. split.
  - vm_compute. auto.
  - apply (report_depends_on_membership data c1 c2).
    + reflexivity.
    + intros x. vm_compute. tauto.
Defined.
